(** * UltraQueue: a hybrid RAM + disk queue (src/lib/ultraqueue/ultraqueue.c)

    A shallow embedding of the C translation unit and the properties its
    specification states about it.

    - The RAM tier is the static array [ram_buffer] of C strings with the two
      cursors [ram_start] and [ram_end].
    - The disk tier is the file named by the [path] argument of each call; the
      file system is a finite map from paths to file contents.
    - The C functions are written in a small state monad over [World]; a
      computation yields [None] where the C program has no defined behaviour
      (a write outside the caller's buffer, a read through NULL, a loop that
      never ends).
    - The failures of the C library that the code tests for ([strdup],
      [fopen], [tmpfile], [fputs], [fputc]) are decided by the [io] field of
      the world.  A write either appends all its bytes or none; read errors
      and errors of [fclose], which the code does not test, do not occur.
    - The [int] cursors and return codes are unbounded numbers: the cursors
      stay below the capacity, and only the line count of [ultraqueue_len]
      could leave the range of [int], on a file of more than 2^31 lines.
    - The process-wide mutex makes every public operation one critical
      section, so the operations are modelled as atomic steps. *)

From Stdlib Require Import ZArith Lia Ascii String.
From stdpp Require Import base option list gmap strings.

Local Open Scope Z_scope.
Local Open Scope nat_scope.

(** ** Data *)

(** A C string is represented by its characters before the terminating NUL.
    File contents and the [line] buffer are raw bytes and may hold NULs; they
    are turned into C strings with [c_str]. *)
Definition cstring := list ascii.

Definition NUL : ascii := Ascii.zero.
Definition newline : ascii := "010"%char.

(** The C string that starts at the beginning of a byte buffer. *)
Fixpoint c_str (buf : list ascii) : cstring :=
  match buf with
  | [] => []
  | c :: buf' => if decide (c = NUL) then [] else c :: c_str buf'
  end.

(** [#define MAX_LINE 4096] *)
Definition MAX_LINE : nat := 4096.

(** The behaviour of the C library that the program cannot control: whether
    [strdup], [fopen] and [tmpfile] fail, and how many [fputs]/[fputc] calls
    succeed before the first one that reports [EOF]. *)
Record IoFaults := mkIo {
  malloc_fails : bool;
  fopen_r_fails : bool;
  fopen_a_fails : bool;
  fopen_w_fails : bool;
  tmpfile_fails : bool;
  writes_left : option nat
}.

Definition no_faults : IoFaults := mkIo false false false false false None.

(** The static variables of the translation unit and the file system. *)
Record World := mkWorld {
  ram_buffer : list (option cstring);
  ram_start : nat;
  ram_end : nat;
  disk : gmap string (list ascii);
  io : IoFaults
}.

Definition set_buffer (b : list (option cstring)) (w : World) : World :=
  mkWorld b (ram_start w) (ram_end w) (disk w) (io w).
Definition set_start (s : nat) (w : World) : World :=
  mkWorld (ram_buffer w) s (ram_end w) (disk w) (io w).
Definition set_end (e : nat) (w : World) : World :=
  mkWorld (ram_buffer w) (ram_start w) e (disk w) (io w).
Definition set_disk (d : gmap string (list ascii)) (w : World) : World :=
  mkWorld (ram_buffer w) (ram_start w) (ram_end w) d (io w).
Definition set_io (f : IoFaults) (w : World) : World :=
  mkWorld (ram_buffer w) (ram_start w) (ram_end w) (disk w) f.

(** ** The monad of C computations *)

Definition M (A : Type) : Type := World -> option (A * World).

Definition ret {A} (a : A) : M A := fun w => Some (a, w).
Definition bind {A B} (m : M A) (k : A -> M B) : M B :=
  fun w => match m w with
           | Some (a, w') => k a w'
           | None => None
           end.
Definition undefined {A} : M A := fun _ => None.
Definition gets {A} (f : World -> A) : M A := fun w => Some (f w, w).
Definition modify (f : World -> World) : M unit := fun w => Some (tt, f w).

Notation "x <- m ;; k" := (bind m (fun x => k))
  (at level 100, m at next level, right associativity).
Notation "m ;;; k" := (bind m (fun _ => k))
  (at level 100, right associativity).

(** ** The C library *)

(** [strdup]: a fresh copy, or NULL when the allocation fails. *)
Definition strdup (s : cstring) : M (option cstring) :=
  gets (fun w => if malloc_fails (io w) then None else Some s).

(** [strncpy(out_buf, src, buf_size - 1); out_buf[buf_size - 1] = '\0';]
    as the C string left in [out_buf].  [buf_size] is a [size_t]: at 0 the
    count wraps to [SIZE_MAX] and both writes fall outside the caller's
    buffer, which has no defined behaviour. *)
Definition strncpy_nul (src : cstring) (buf_size : nat) : M cstring :=
  match buf_size with
  | 0 => undefined
  | S n => ret (take n src)
  end.

(** [fgets(line, size, fp)] on the unread part of a stream: at most [n]
    bytes, stopping after a newline. *)
Fixpoint fgets_aux (n : nat) (fp : list ascii) : list ascii * list ascii :=
  match n, fp with
  | 0, _ => ([], fp)
  | _, [] => ([], [])
  | S n', c :: fp' =>
      if decide (c = newline) then ([c], fp')
      else let '(line, rest) := fgets_aux n' fp' in (c :: line, rest)
  end.

(** [None] is the NULL that [fgets] returns at end of file. *)
Definition fgets (size : nat) (fp : list ascii)
  : option (list ascii * list ascii) :=
  match fp with
  | [] => None
  | _ => Some (fgets_aux (size - 1) fp)
  end.

(** One [fputs]/[fputc]: whether it succeeds, consuming the write budget. *)
Definition write_ok : M bool :=
  fun w =>
    match writes_left (io w) with
    | Some 0 => Some (false, w)
    | Some (S n) =>
        let f := io w in
        Some (true, set_io (mkIo (malloc_fails f) (fopen_r_fails f)
                                 (fopen_a_fails f) (fopen_w_fails f)
                                 (tmpfile_fails f) (Some n)) w)
    | None => Some (true, w)
    end.

Definition file_content (path : string) (w : World) : list ascii :=
  default [] (disk w !! path).

(** Writing to a stream opened on [path]: the bytes go to the end of the
    file.  The result is [false] when the call reports [EOF]. *)
Definition fwrite_file (path : string) (bytes : list ascii) : M bool :=
  ok <- write_ok ;;
  if ok : bool then
    modify (fun w => set_disk (<[path := file_content path w ++ bytes]> (disk w)) w) ;;;
    ret true
  else ret false.

Definition fputs_file (path : string) (s : cstring) : M bool :=
  fwrite_file path s.
Definition fputc_file (path : string) (c : ascii) : M bool :=
  fwrite_file path [c].

(** [fputs(line, temp)]; the code does not look at the result. *)
Definition fputs_temp (s : cstring) (temp : list ascii) : M (list ascii) :=
  ok <- write_ok ;;
  ret (if ok : bool then temp ++ s else temp).

(** [fopen(path, "r")]: the contents to read, or NULL when the file is
    missing or cannot be opened. *)
Definition fopen_r (path : string) : M (option (list ascii)) :=
  gets (fun w => if fopen_r_fails (io w) then None else disk w !! path).

(** [fopen(path, "a")]: creates the file when it is missing. *)
Definition fopen_a (path : string) : M bool :=
  fun w =>
    if fopen_a_fails (io w) then Some (false, w)
    else Some (true, set_disk (<[path := file_content path w]> (disk w)) w).

(** [fopen(path, "w")]: creates the file or truncates it. *)
Definition fopen_w (path : string) : M bool :=
  fun w =>
    if fopen_w_fails (io w) then Some (false, w)
    else Some (true, set_disk (<[path := []]> (disk w)) w).

Definition tmpfile : M bool :=
  gets (fun w => negb (tmpfile_fails (io w))).

(** ** The RAM tier *)

Section UltraQueue.

(** [#define RAM_BUFFER_CAPACITY 10000].  The constant is a parameter of the
    model; the value of the source is [SOURCE_CAPACITY] below. *)
Variable RAM_BUFFER_CAPACITY : nat.

(** [ram_buffer[i]] as an rvalue and [ram_buffer[i] = v]; an index outside
    the array has no defined behaviour. *)
Definition load_slot (i : nat) : M (option cstring) :=
  fun w => match ram_buffer w !! i with
           | Some p => Some (p, w)
           | None => None
           end.

Definition store_slot (i : nat) (v : option cstring) : M unit :=
  fun w => if decide (i < length (ram_buffer w))
           then Some (tt, set_buffer (<[i := v]> (ram_buffer w)) w)
           else None.

Definition is_ram_full : M bool :=
  gets (fun w =>
    bool_decide ((ram_end w + 1) mod RAM_BUFFER_CAPACITY = ram_start w)).

Definition is_ram_empty : M bool :=
  gets (fun w => bool_decide (ram_start w = ram_end w)).

Definition push_ram (item : cstring) : M Z :=
  full <- is_ram_full ;;
  if full : bool then ret (-1)%Z
  else
    copy <- strdup item ;;
    match copy with
    | None => ret (-2)%Z
    | Some _ =>
        e <- gets ram_end ;;
        store_slot e copy ;;;
        modify (set_end ((e + 1) mod RAM_BUFFER_CAPACITY)) ;;;
        ret 0%Z
    end.

Definition pop_ram (out_buf : cstring) (buf_size : nat) : M (Z * cstring) :=
  empty <- is_ram_empty ;;
  if empty : bool then ret ((-1)%Z, out_buf)
  else
    s <- gets ram_start ;;
    p <- load_slot s ;;
    match p with
    | None => undefined
    | Some src =>
        out <- strncpy_nul src buf_size ;;
        store_slot s None ;;;
        modify (set_start ((s + 1) mod RAM_BUFFER_CAPACITY)) ;;;
        ret (0%Z, out)
    end.

(** ** The disk tier *)

(** The [while (!is_ram_empty())] loop of [spill_to_disk]; the result is 0
    when the loop ends and the code of the failed write otherwise.  [fuel]
    bounds the number of rounds: a well-formed RAM tier is empty after fewer
    rounds than it has slots ([spill_loop_spec]). *)
Fixpoint spill_loop (fuel : nat) (path : string) : M Z :=
  match fuel with
  | 0 => undefined
  | S fuel' =>
      empty <- is_ram_empty ;;
      if empty : bool then ret 0%Z
      else
        s <- gets ram_start ;;
        p <- load_slot s ;;
        match p with
        | None => undefined
        | Some str =>
            ok <- fputs_file path str ;;
            if negb ok then ret (-2)%Z
            else
              ok' <- fputc_file path newline ;;
              if negb ok' then ret (-3)%Z
              else
                store_slot s None ;;;
                modify (set_start ((s + 1) mod RAM_BUFFER_CAPACITY)) ;;;
                spill_loop fuel' path
        end
  end.

Definition spill_to_disk (path : string) : M Z :=
  fp <- fopen_a path ;;
  if negb fp then ret (-1)%Z
  else
    r <- spill_loop (S RAM_BUFFER_CAPACITY) path ;;
    if decide (r = 0%Z) then
      modify (fun w => set_end 0 (set_start 0 w)) ;;;
      ret 0%Z
    else ret r.

(** ** The coordinator *)

Definition ultraqueue_push (path : string) (item : cstring) : M Z :=
  res <- push_ram item ;;
  if decide (res = (-1)%Z) then
    spill_res <- spill_to_disk path ;;
    if decide (spill_res <> 0%Z) then ret spill_res
    else push_ram item
  else ret res.

(** [len = strlen(out_buf); if (len > 0 && out_buf[len - 1] == '\n')
    out_buf[len - 1] = '\0';] *)
Definition strip_newline (out_buf : cstring) : cstring :=
  match last out_buf with
  | Some c => if decide (c = newline) then removelast out_buf else out_buf
  | None => out_buf
  end.

(** The first [while (fgets(line, MAX_LINE, fp))] loop of [ultraqueue_pop]:
    [fp] is the unread part of the file, [temp] the bytes written to the
    temporary file.  Every round reads at least one byte, so the length of
    the file bounds the number of rounds. *)
Fixpoint scan_lines (fuel : nat) (fp : list ascii) (found : bool)
    (out_buf : cstring) (buf_size : nat) (temp : list ascii)
  : M (bool * cstring * list ascii) :=
  match fuel with
  | 0 => undefined
  | S fuel' =>
      match fgets MAX_LINE fp with
      | None => ret (found, out_buf, temp)
      | Some (line, fp') =>
          if found then
            temp' <- fputs_temp (c_str line) temp ;;
            scan_lines fuel' fp' true out_buf buf_size temp'
          else
            out <- strncpy_nul (c_str line) buf_size ;;
            scan_lines fuel' fp' true (strip_newline out) buf_size temp
      end
  end.

(** The second loop: [while (fgets(line, MAX_LINE, temp)) fputs(line, fp)]. *)
Fixpoint copy_back (fuel : nat) (temp : list ascii) (path : string) : M unit :=
  match fuel with
  | 0 => undefined
  | S fuel' =>
      match fgets MAX_LINE temp with
      | None => ret tt
      | Some (line, temp') =>
          fputs_file path (c_str line) ;;;
          copy_back fuel' temp' path
      end
  end.

Definition ultraqueue_pop (path : string) (out_buf : cstring) (buf_size : nat)
  : M (Z * cstring) :=
  r <- pop_ram out_buf buf_size ;;
  if decide (r.1 = 0%Z) then ret (0%Z, r.2)
  else
    fp <- fopen_r path ;;
    match fp with
    | None => ret ((-1)%Z, out_buf)
    | Some content =>
        temp_ok <- tmpfile ;;
        if negb temp_ok then ret ((-2)%Z, out_buf)
        else
          s <- scan_lines (S (length content)) content false out_buf buf_size [] ;;
          let '(found, out, temp) := s in
          fp_ok <- fopen_w path ;;
          if negb fp_ok then ret ((-3)%Z, out)
          else
            copy_back (S (length temp)) temp path ;;;
            ret (if found : bool then 0%Z else (-4)%Z, out)
    end.

(** The [fgetc] loop of [ultraqueue_len]. *)
Fixpoint count_newlines (fp : list ascii) (count : Z) : Z :=
  match fp with
  | [] => count
  | ch :: fp' =>
      count_newlines fp' (if decide (ch = newline) then (count + 1)%Z else count)
  end.

Definition ultraqueue_len (path : string) : M Z :=
  s <- gets ram_start ;;
  e <- gets ram_end ;;
  let count :=
    Z.of_nat ((e + RAM_BUFFER_CAPACITY - s) mod RAM_BUFFER_CAPACITY) in
  fp <- fopen_r path ;;
  match fp with
  | Some content => ret (count_newlines content count)
  | None => ret count
  end.

End UltraQueue.

(** The value of [RAM_BUFFER_CAPACITY] in the source. *)
Definition SOURCE_CAPACITY : nat := 100 * 100.

(** The static initialisers: every slot NULL, both cursors 0. *)
Definition initial_world (capacity : nat) (d : gmap string (list ascii))
    (f : IoFaults) : World :=
  mkWorld (replicate capacity None) 0 0 d f.

(** ** Notions used by the statements *)

(** The number of strings held by the array: its non-NULL slots. *)
Fixpoint occupied (buf : list (option cstring)) : nat :=
  match buf with
  | [] => 0
  | Some _ :: buf' => S (occupied buf')
  | None :: buf' => occupied buf'
  end.

(** The RAM tier holds the items [l], oldest first: they sit in the slots
    from [ram_start] on, wrapping around, [ram_end] is the slot after the
    last one, and every other slot is NULL. *)
Definition ring_repr (capacity : nat) (l : list cstring) (w : World) : Prop :=
  length (ram_buffer w) = capacity /\
  ram_start w < capacity /\
  length l < capacity /\
  ram_end w = (ram_start w + length l) mod capacity /\
  occupied (ram_buffer w) = length l /\
  forall j, j < capacity ->
    ram_buffer w !! ((ram_start w + j) mod capacity) = Some (l !! j).

(** The bytes that a spill writes for a sequence of items. *)
Definition lines (l : list cstring) : list ascii :=
  concat (map (fun s => s ++ [newline]) l).

(** The world after the head slot is freed and [ram_start] advanced, the
    step shared by [pop_ram] and the spill loop. *)
Definition free_head (capacity : nat) (w : World) : World :=
  set_start ((ram_start w + 1) mod capacity)
    (set_buffer (<[ram_start w := None]> (ram_buffer w)) w).

(** The world after one write of [bytes] to [path] has succeeded. *)
Definition after_write (path : string) (bytes : list ascii) (w : World)
  : World :=
  let f := io w in
  mkWorld (ram_buffer w) (ram_start w) (ram_end w)
    (<[path := file_content path w ++ bytes]> (disk w))
    (mkIo (malloc_fails f) (fopen_r_fails f) (fopen_a_fails f)
       (fopen_w_fails f) (tmpfile_fails f) (pred <$> writes_left f)).

(** Two worlds with the same RAM tier. *)
Definition same_ram (w w' : World) : Prop :=
  ram_buffer w' = ram_buffer w /\
  ram_start w' = ram_start w /\
  ram_end w' = ram_end w.

(** An item that a disk pop reads back whole: it has no NUL and no newline
    and, with its newline, fits in the [line] buffer. *)
Definition line_item (s : cstring) : Prop :=
  (NUL ∉ s) /\ (newline ∉ s) /\ length s < MAX_LINE - 1.

#[global] Instance line_item_dec (s : cstring) : Decision (line_item s).
Proof. unfold line_item. apply _. Defined.

(** A run of pushes on one path, with the codes they return. *)
Fixpoint push_all (capacity : nat) (path : string) (items : list cstring)
  : M (list Z) :=
  match items with
  | [] => ret []
  | item :: items' =>
      r <- ultraqueue_push capacity path item ;;
      rs <- push_all capacity path items' ;;
      ret (r :: rs)
  end.

(** A run of [n] pops on one path, each into a fresh buffer of [buf_size]
    bytes, with the code and the buffer that each leaves. *)
Fixpoint pop_all (capacity : nat) (path : string) (buf_size n : nat)
  : M (list (Z * cstring)) :=
  match n with
  | 0 => ret []
  | S n' =>
      r <- ultraqueue_pop capacity path [] buf_size ;;
      rs <- pop_all capacity path buf_size n' ;;
      ret (r :: rs)
  end.

(** The world that a computation leaves. *)
Definition world_after {A} (m : M A) (w : World) : World :=
  match m w with
  | Some (_, w') => w'
  | None => w
  end.

(** The C string of a literal. *)
Definition str (s : string) : cstring := list_ascii_of_string s.

(** The worlds that the program can be in: the initial one, and those that
    follow a reachable one by a call of a public operation or by a change
    of the environment (files, faults of the C library). *)
Inductive reachable (capacity : nat) : World -> Prop :=
| reach_init d f : reachable capacity (initial_world capacity d f)
| reach_push w path item r w' :
    reachable capacity w ->
    ultraqueue_push capacity path item w = Some (r, w') ->
    reachable capacity w'
| reach_pop w path out_buf buf_size r w' :
    reachable capacity w ->
    ultraqueue_pop capacity path out_buf buf_size w = Some (r, w') ->
    reachable capacity w'
| reach_len w path r w' :
    reachable capacity w ->
    ultraqueue_len capacity path w = Some (r, w') ->
    reachable capacity w'
| reach_env w d f :
    reachable capacity w ->
    reachable capacity (set_io f (set_disk d w)).

(** The circular-buffer invariant, in terms of the slots in use. *)
Definition ring_invariant (capacity : nat) (w : World) : Prop :=
  (ram_start w = ram_end w <-> occupied (ram_buffer w) = 0) /\
  ((ram_end w + 1) mod capacity = ram_start w <->
     occupied (ram_buffer w) = capacity - 1) /\
  occupied (ram_buffer w) <= capacity - 1.

(** ** Arithmetic of the cursors *)

Lemma mod_add_small a b c :
  a < c -> b < c ->
  (a + b) mod c = if decide (a + b < c) then a + b else a + b - c.
Proof.
  intros Ha Hb. case_decide as Hlt.
  - by apply Nat.mod_small.
  - replace (a + b) with ((a + b - c) + 1 * c) at 1 by lia.
    rewrite Nat.Div0.mod_add. apply Nat.mod_small. lia.
Qed.

Lemma mod_add_inj s i j c :
  s < c -> i < c -> j < c -> (s + i) mod c = (s + j) mod c -> i = j.
Proof.
  intros Hs Hi Hj. rewrite !mod_add_small by done.
  repeat case_decide; lia.
Qed.

Lemma mod_succ_shift s j c :
  0 < c -> ((s + 1) mod c + j) mod c = (s + S j) mod c.
Proof.
  intros Hc. rewrite Nat.Div0.add_mod_idemp_l. f_equal. lia.
Qed.

Lemma mod_add_cap s c : s < c -> (s + c) mod c = s.
Proof.
  intros Hs. replace (s + c) with (s + 1 * c) by lia.
  rewrite Nat.Div0.mod_add. by apply Nat.mod_small.
Qed.

(** ** Slots in use *)

Lemma occupied_replicate n : occupied (replicate n None) = 0.
Proof. induction n; simpl; auto. Qed.

Lemma occupied_store buf i (s : cstring) :
  buf !! i = Some None ->
  occupied (<[i := Some s]> buf) = S (occupied buf).
Proof.
  revert i. induction buf as [|p buf IH]; intros [|i] H; simplify_eq/=; auto.
  destruct p; simpl; rewrite IH; auto.
Qed.

Lemma occupied_free buf i (s : cstring) :
  buf !! i = Some (Some s) ->
  S (occupied (<[i := None]> buf)) = occupied buf.
Proof.
  revert i. induction buf as [|p buf IH]; intros [|i] H; simplify_eq/=; auto.
  destruct p; simpl; rewrite <- (IH i) by done; auto.
Qed.

(** ** The RAM tier as a queue *)

Section RamTier.

Context (cap : nat) (cap_pos : 0 < cap).

Lemma ring_repr_initial d f : ring_repr cap [] (initial_world cap d f).
Proof.
  unfold ring_repr; simpl. rewrite length_replicate, occupied_replicate.
  rewrite Nat.Div0.mod_0_l. repeat split; try done.
  intros j Hj. rewrite Nat.mod_small by done.
  by rewrite lookup_replicate_2.
Qed.

Lemma ring_repr_full l w :
  ring_repr cap l w ->
  (ram_end w + 1) mod cap = ram_start w <-> length l = cap - 1.
Proof.
  intros (_ & Hs & Hl & He & _). rewrite He, Nat.Div0.add_mod_idemp_l.
  destruct (decide (length l + 1 = cap)) as [Heq|Hne].
  - replace (ram_start w + length l + 1) with (ram_start w + cap) by lia.
    rewrite mod_add_cap by done. lia.
  - replace (ram_start w + length l + 1)
      with (ram_start w + (length l + 1)) by lia.
    rewrite mod_add_small by lia. case_decide; lia.
Qed.

Lemma ring_repr_empty l w :
  ring_repr cap l w -> ram_start w = ram_end w <-> l = [].
Proof.
  intros (_ & Hs & Hl & He & _). rewrite He, mod_add_small by done.
  destruct l; simpl in *; case_decide; split; intros; try done; lia.
Qed.

Lemma ring_repr_invariant l w : ring_repr cap l w -> ring_invariant cap w.
Proof.
  intros H. pose proof (ring_repr_full _ _ H) as Hf.
  pose proof (ring_repr_empty _ _ H) as He.
  destruct H as (_ & _ & Hl & _ & Ho & _). unfold ring_invariant.
  rewrite Ho, Hf, He. repeat split; try lia.
  - by intros ->.
  - by destruct l.
Qed.

Lemma ring_repr_count l w :
  ring_repr cap l w ->
  (ram_end w + cap - ram_start w) mod cap = length l.
Proof.
  intros (_ & Hs & Hl & He & _). rewrite He, mod_add_small by done.
  case_decide.
  - replace (ram_start w + length l + cap - ram_start w)
      with (length l + 1 * cap) by lia.
    rewrite Nat.Div0.mod_add. by apply Nat.mod_small.
  - replace (ram_start w + length l - cap + cap - ram_start w)
      with (length l) by lia.
    by apply Nat.mod_small.
Qed.

Lemma push_ram_full l w item :
  ring_repr cap l w -> length l = cap - 1 ->
  push_ram cap item w = Some ((-1)%Z, w).
Proof.
  intros H Hfull. apply ring_repr_full in H. apply H in Hfull.
  unfold push_ram, bind, is_ram_full, gets.
  by rewrite bool_decide_eq_true_2.
Qed.

Lemma push_ram_no_memory l w item :
  ring_repr cap l w -> length l <> cap - 1 -> malloc_fails (io w) = true ->
  push_ram cap item w = Some ((-2)%Z, w).
Proof.
  intros H Hfull Hm. apply ring_repr_full in H.
  unfold push_ram, bind, is_ram_full, gets, strdup, gets.
  rewrite bool_decide_eq_false_2 by tauto. by rewrite Hm.
Qed.

Lemma push_ram_ok l w item :
  ring_repr cap l w -> length l <> cap - 1 -> malloc_fails (io w) = false ->
  exists w',
    push_ram cap item w = Some (0%Z, w') /\
    ring_repr cap (l ++ [item]) w' /\ disk w' = disk w /\ io w' = io w.
Proof.
  intros H Hfull Hm. pose proof (ring_repr_full _ _ H) as Hf.
  destruct H as (Hlen & Hs & Hl & He & Ho & Hslots).
  assert (Hend : ram_end w < cap) by (rewrite He; by apply Nat.mod_upper_bound; lia).
  unfold push_ram, bind, is_ram_full, gets, strdup, gets, store_slot, modify, ret.
  rewrite bool_decide_eq_false_2 by tauto. rewrite Hm.
  rewrite decide_True by lia.
  eexists; split; [reflexivity|]. split; [|done].
  assert (Hnull : ram_buffer w !! ram_end w = Some None).
  { rewrite He, Hslots by lia. by rewrite lookup_ge_None_2. }
  unfold ring_repr; simpl. rewrite length_insert, length_app; simpl.
  repeat split; try done; try lia.
  - rewrite He, Nat.Div0.add_mod_idemp_l. f_equal. lia.
  - rewrite (occupied_store _ _ _ Hnull). lia.
  - intros j Hj. destruct (decide (j = length l)) as [->|Hne].
    + rewrite <- He, list_lookup_insert_eq by lia.
      by rewrite lookup_app_r, Nat.sub_diag.
    + rewrite list_lookup_insert_ne.
      2:{ rewrite He. intros Heq. apply mod_add_inj in Heq; lia. }
      rewrite Hslots by done. f_equal.
      destruct (decide (j < length l)).
      * by rewrite lookup_app_l.
      * rewrite !lookup_ge_None_2; [done| |lia].
        rewrite length_app; simpl; lia.
Qed.

Lemma pop_ram_empty w out_buf buf_size :
  ring_repr cap [] w ->
  pop_ram cap out_buf buf_size w = Some (((-1)%Z, out_buf), w).
Proof.
  intros H. apply ring_repr_empty in H.
  unfold pop_ram, bind, is_ram_empty, gets.
  rewrite bool_decide_eq_true_2; [done|]. by apply H.
Qed.

Lemma ring_repr_head x l w :
  ring_repr cap (x :: l) w -> ram_buffer w !! ram_start w = Some (Some x).
Proof.
  intros (_ & Hs & _ & _ & _ & Hslots).
  specialize (Hslots 0 cap_pos). rewrite Nat.add_0_r in Hslots.
  by rewrite Nat.mod_small in Hslots.
Qed.

(** Freeing the head slot and advancing [ram_start] removes the oldest
    item. *)
Lemma ring_repr_advance x l w :
  ring_repr cap (x :: l) w -> ring_repr cap l (free_head cap w).
Proof.
  intros H. pose proof (ring_repr_head _ _ _ H) as Hhead.
  destruct H as (Hlen & Hs & Hl & He & Ho & Hslots); simpl in *.
  unfold ring_repr, free_head; simpl. rewrite length_insert.
  repeat split; try done; try lia.
  - by apply Nat.mod_upper_bound; lia.
  - rewrite He, Nat.Div0.add_mod_idemp_l. f_equal. lia.
  - pose proof (occupied_free _ _ _ Hhead). lia.
  - intros j Hj. rewrite mod_succ_shift by done.
    destruct (decide (S j = cap)) as [Heq|Hne].
    + rewrite Heq, mod_add_cap by done.
      rewrite list_lookup_insert_eq by lia.
      by rewrite lookup_ge_None_2 by lia.
    + rewrite list_lookup_insert_ne.
      2:{ intros Heq. replace (ram_start w) with ((ram_start w + 0) mod cap)
            in Heq at 1 by (rewrite Nat.add_0_r; by apply Nat.mod_small).
          apply mod_add_inj in Heq; lia. }
      by rewrite Hslots by lia.
Qed.

Lemma pop_ram_ok x l w out_buf n :
  ring_repr cap (x :: l) w ->
  exists w',
    pop_ram cap out_buf (S n) w = Some ((0%Z, take n x), w') /\
    ring_repr cap l w' /\ disk w' = disk w /\ io w' = io w.
Proof.
  intros H. pose proof (ring_repr_head _ _ _ H) as Hhead.
  pose proof (ring_repr_empty _ _ H) as He.
  pose proof (ring_repr_advance _ _ _ H) as Hadv.
  destruct H as (Hlen & Hs & _).
  unfold pop_ram, bind, is_ram_empty, gets, load_slot, store_slot, modify, ret.
  rewrite bool_decide_eq_false_2 by (intros Heq; by apply He in Heq).
  rewrite Hhead; simpl. rewrite decide_True by lia.
  eexists; split; [reflexivity|]. by split.
Qed.

(** With a buffer of size 0 the copy leaves the caller's buffer. *)
Lemma pop_ram_zero x l w out_buf :
  ring_repr cap (x :: l) w -> pop_ram cap out_buf 0 w = None.
Proof.
  intros H. pose proof (ring_repr_head _ _ _ H) as Hhead.
  pose proof (ring_repr_empty _ _ H) as He.
  unfold pop_ram, bind, is_ram_empty, gets, load_slot.
  rewrite bool_decide_eq_false_2 by (intros Heq; by apply He in Heq).
  by rewrite Hhead.
Qed.

End RamTier.

(** ** Writes and the spill *)

Lemma fwrite_file_eq path bytes w :
  fwrite_file path bytes w =
    if decide (writes_left (io w) = Some 0) then Some (false, w)
    else Some (true, after_write path bytes w).
Proof.
  unfold fwrite_file, bind, write_ok, after_write, modify, ret, file_content.
  destruct w as [b s e d [m r a wr t [[|n]|]]]; simpl; done.
Qed.

Lemma after_write_same_ram path bytes w : same_ram w (after_write path bytes w).
Proof. done. Qed.

Lemma after_write_content path bytes w :
  file_content path (after_write path bytes w) = file_content path w ++ bytes.
Proof. unfold file_content at 1; simpl. by rewrite lookup_insert_eq. Qed.

Lemma after_write_other path bytes w p :
  p <> path -> disk (after_write path bytes w) !! p = disk w !! p.
Proof. intros. simpl. by rewrite lookup_insert_ne. Qed.

Lemma after_write_io path bytes w :
  writes_left (io w) = None -> io (after_write path bytes w) = io w.
Proof. destruct w as [b s e d [m r a wr t wl]]; simpl. by intros ->. Qed.

Lemma ring_repr_same_ram cap l w w' :
  same_ram w w' -> ring_repr cap l w -> ring_repr cap l w'.
Proof. intros (Hb & Hs & He). unfold ring_repr. by rewrite Hb, Hs, He. Qed.

Lemma lines_cons x l : lines (x :: l) = x ++ newline :: lines l.
Proof. unfold lines; simpl. by rewrite <- app_assoc. Qed.

Lemma count_newlines_lines items count :
  Forall (fun s => newline ∉ s) items ->
  count_newlines (lines items) count = (count + Z.of_nat (length items))%Z.
Proof.
  intros Hitems. revert count.
  assert (Hone : forall s fp c, newline ∉ s ->
            count_newlines (s ++ newline :: fp) c =
            count_newlines fp (c + 1)%Z).
  { induction s as [|ch s IHs]; intros fp c Hs; cbn [app count_newlines].
    - by rewrite decide_True.
    - apply not_elem_of_cons in Hs as [Hne Hs].
      rewrite decide_False by done. by apply IHs. }
  induction Hitems as [|s items Hs _ IH]; intros count.
  - simpl. lia.
  - rewrite lines_cons, Hone by done. rewrite IH. simpl length. lia.
Qed.

Section DiskTier.

Context (cap : nat) (cap_pos : 0 < cap).

(** One round of the spill loop on a non-empty RAM tier. *)
Lemma spill_loop_step fuel path x l w :
  ring_repr cap (x :: l) w ->
  spill_loop cap (S fuel) path w =
    if decide (writes_left (io w) = Some 0) then Some ((-2)%Z, w)
    else
      let w1 := after_write path x w in
      if decide (writes_left (io w1) = Some 0) then Some ((-3)%Z, w1)
      else spill_loop cap fuel path
             (free_head cap (after_write path [newline] w1)).
Proof.
  intros H. pose proof (ring_repr_head _ cap_pos _ _ _ H) as Hhead.
  pose proof (ring_repr_empty _ cap_pos _ _ H) as He.
  destruct H as (Hlen & Hs & _).
  cbn [spill_loop]. unfold bind at 1. unfold is_ram_empty, gets.
  rewrite bool_decide_eq_false_2 by (intros Heq; by apply He in Heq).
  unfold bind at 1. unfold bind at 1. unfold load_slot. rewrite Hhead.
  unfold bind at 1. unfold fputs_file. rewrite fwrite_file_eq.
  case_decide as Hw; [done|]. cbn [negb].
  unfold bind at 1. unfold fputc_file. rewrite fwrite_file_eq.
  cbn zeta. case_decide as Hw1; [done|]. cbn [negb].
  unfold bind at 1. unfold store_slot.
  rewrite decide_True by (simpl; lia).
  unfold bind at 1. unfold modify. done.
Qed.

(** What a run of the loop does, whatever writes fail: it moves the [k]
    oldest items to the file and stops; [tail] is the item whose newline
    could not be written. *)
Lemma spill_loop_spec path l : forall fuel w,
  ring_repr cap l w -> length l < fuel ->
  exists r w' k tail,
    spill_loop cap fuel path w = Some (r, w') /\
    ring_repr cap (drop k l) w' /\
    file_content path w' = file_content path w ++ lines (take k l) ++ tail /\
    (forall p, p <> path -> disk w' !! p = disk w !! p) /\
    (r = 0%Z /\ k = length l /\ tail = [] \/
     r = (-2)%Z /\ k < length l /\ tail = [] \/
     r = (-3)%Z /\ l !! k = Some tail) /\
    (writes_left (io w) = None -> r = 0%Z /\ io w' = io w).
Proof.
  induction l as [|x l IH]; intros [|fuel] w H Hfuel; simpl in Hfuel; try lia.
  - exists 0%Z, w, 0, []. pose proof (ring_repr_empty _ cap_pos _ _ H) as He.
    cbn [spill_loop]. unfold bind, is_ram_empty, gets, ret.
    rewrite bool_decide_eq_true_2 by (by apply He).
    simpl. rewrite app_nil_r. split_and!; auto.
  - rewrite (spill_loop_step _ _ _ _ _ H).
    case_decide as Hw.
    { exists (-2)%Z, w, 0, []. simpl. rewrite app_nil_r.
      split_and!; auto.
      - right; left. split_and!; auto. lia.
      - intros Hn; rewrite Hn in Hw; done. }
    cbn zeta. case_decide as Hw1.
    { exists (-3)%Z, (after_write path x w), 0, x. simpl.
      rewrite after_write_content.
      split_and!; auto.
      - intros p Hp. by apply after_write_other.
      - intros Hn. rewrite after_write_io in Hw1 by done.
        rewrite Hn in Hw1; done. }
    set (w1 := after_write path x w) in *.
    set (w2 := after_write path [newline] w1).
    assert (H2 : ring_repr cap (x :: l) w2).
    { apply (ring_repr_same_ram _ _ w1); [done|].
      by apply (ring_repr_same_ram _ _ w). }
    apply (ring_repr_advance _ cap_pos) in H2.
    destruct (IH fuel _ H2 ltac:(lia))
      as (r & w' & k & tail & Hrun & Hr & Hc & Ho & Hcase & Hio).
    exists r, w', (S k), tail. rewrite Hrun. simpl.
    assert (Hio2 : writes_left (io w) = None -> io w2 = io w).
    { intros Hn. unfold w2, w1.
      rewrite !after_write_io; auto. by rewrite after_write_io. }
    split_and!; auto.
    + rewrite Hc. change (file_content path (free_head cap w2))
        with (file_content path w2).
      unfold w2, w1. rewrite !after_write_content, lines_cons.
      by rewrite <- !app_assoc.
    + intros p Hp. rewrite (Ho p Hp). unfold free_head; simpl.
      by rewrite !lookup_insert_ne.
    + destruct Hcase as [(-> & -> & ->)|[(-> & Hk & ->)|(-> & Hk)]]; auto.
      right; left. split_and!; auto. lia.
    + intros Hn. specialize (Hio2 Hn).
      assert (Hfh : io (free_head cap w2) = io w2) by done.
      destruct Hio as [-> ->]; [by rewrite Hfh, Hio2|].
      split; [done|]. by rewrite Hfh.
Qed.

Lemma occupied_zero buf i :
  occupied buf = 0 -> i < length buf -> buf !! i = Some None.
Proof.
  revert i. induction buf as [|[s|] buf IH]; intros i Ho Hi; simpl in *;
    try lia; try done.
  destruct i; [done|]. apply IH; [done|lia].
Qed.

Lemma ring_repr_reset w :
  ring_repr cap [] w -> ring_repr cap [] (set_end 0 (set_start 0 w)).
Proof.
  intros (Hlen & Hs & Hl & He & Ho & Hslots). unfold ring_repr; simpl in *.
  rewrite Nat.Div0.mod_0_l. split_and!; auto.
  intros j Hj. rewrite Nat.mod_small by done.
  rewrite occupied_zero; [done|done|lia].
Qed.

(** What [spill_to_disk] does, whatever fails. *)
Lemma spill_to_disk_spec path l w :
  ring_repr cap l w ->
  exists r w' k tail,
    spill_to_disk cap path w = Some (r, w') /\
    ring_repr cap (drop k l) w' /\
    file_content path w' = file_content path w ++ lines (take k l) ++ tail /\
    (forall p, p <> path -> disk w' !! p = disk w !! p) /\
    (r = 0%Z /\ k = length l /\ tail = [] \/
     r = (-1)%Z /\ k = 0 /\ tail = [] /\ w' = w \/
     r = (-2)%Z /\ k < length l /\ tail = [] \/
     r = (-3)%Z /\ l !! k = Some tail) /\
    (fopen_a_fails (io w) = false -> writes_left (io w) = None ->
     r = 0%Z /\ io w' = io w).
Proof.
  intros H. unfold spill_to_disk, bind at 1, fopen_a.
  destruct (fopen_a_fails (io w)) eqn:Hopen.
  { exists (-1)%Z, w, 0, []. simpl. rewrite app_nil_r.
    split_and!; auto; [by right; left|done]. }
  cbn [negb].
  set (w0 := set_disk (<[path:=file_content path w]> (disk w)) w).
  assert (H0 : ring_repr cap l w0) by done.
  assert (Hc0 : file_content path w0 = file_content path w).
  { unfold w0, file_content at 1; simpl. by rewrite lookup_insert_eq. }
  assert (Hfuel : length l < S cap) by (destruct H as (_ & _ & ? & _); lia).
  destruct (spill_loop_spec path l _ _ H0 Hfuel)
    as (r & w' & k & tail & Hrun & Hr & Hc & Ho & Hcase & Hio).
  unfold bind at 1. rewrite Hrun.
  assert (Hother : forall p, p <> path -> disk w' !! p = disk w !! p).
  { intros p Hp. rewrite (Ho p Hp). unfold w0; simpl.
    by rewrite lookup_insert_ne. }
  case_decide as Hz.
  - exists 0%Z, (set_end 0 (set_start 0 w')), k, tail. subst r.
    destruct Hcase as [(_ & -> & ->)|[(? & _)|(? & _)]]; try done.
    rewrite drop_all in Hr. unfold bind, modify, ret.
    split_and!; auto.
    + rewrite drop_all. by apply ring_repr_reset.
    + change (file_content path (set_end 0 (set_start 0 w')))
        with (file_content path w'). by rewrite Hc, Hc0.
  - exists r, w', k, tail. unfold ret. split_and!; auto.
    + by rewrite Hc, Hc0.
    + destruct Hcase as [(? & _)|[?|?]]; auto. done.
Qed.

(** ** Push *)

Lemma ultraqueue_push_room path item l w :
  ring_repr cap l w -> length l <> cap - 1 -> malloc_fails (io w) = false ->
  exists w',
    ultraqueue_push cap path item w = Some (0%Z, w') /\
    ring_repr cap (l ++ [item]) w' /\ disk w' = disk w /\ io w' = io w.
Proof.
  intros H Hroom Hm.
  destruct (push_ram_ok _ cap_pos _ _ item H Hroom Hm) as (w' & Hpush & Hw').
  exists w'. split; [|done].
  unfold ultraqueue_push, bind. by rewrite Hpush.
Qed.

Lemma ultraqueue_push_full path item l w :
  ring_repr cap l w -> length l = cap - 1 ->
  ultraqueue_push cap path item w =
    match spill_to_disk cap path w with
    | Some (spill_res, w') =>
        if decide (spill_res <> 0%Z) then Some (spill_res, w')
        else push_ram cap item w'
    | None => None
    end.
Proof.
  intros H Hfull. unfold ultraqueue_push, bind.
  rewrite (push_ram_full _ cap_pos _ _ item H Hfull).
  rewrite decide_True by done.
  destruct (spill_to_disk cap path w) as [[r1 w1]|]; [|done].
  by case_decide.
Qed.

Lemma ultraqueue_push_spill path item l w :
  1 < cap ->
  ring_repr cap l w -> length l = cap - 1 ->
  malloc_fails (io w) = false -> fopen_a_fails (io w) = false ->
  writes_left (io w) = None ->
  exists w',
    ultraqueue_push cap path item w = Some (0%Z, w') /\
    ring_repr cap [item] w' /\
    file_content path w' = file_content path w ++ lines l /\
    (forall p, p <> path -> disk w' !! p = disk w !! p) /\
    io w' = io w.
Proof.
  intros Hcap H Hfull Hm Ha Hwr.
  rewrite (ultraqueue_push_full _ _ _ _ H Hfull).
  destruct (spill_to_disk_spec path l w H)
    as (r & w1 & k & tail & Hrun & Hr & Hc & Ho & Hcase & Hio).
  destruct (Hio Ha Hwr) as [-> Hio1]. rewrite Hrun.
  destruct Hcase as [(_ & -> & ->)|[(? & _)|[(? & _)|(? & _)]]]; try done.
  rewrite drop_all in Hr. rewrite take_ge, app_nil_r in Hc by done.
  rewrite decide_False by (intros ?; done).
  assert (Hm1 : malloc_fails (io w1) = false) by (by rewrite Hio1).
  destruct (push_ram_ok _ cap_pos [] w1 item Hr ltac:(simpl; lia) Hm1)
    as (w' & Hpush & Hw' & Hd & Hio').
  exists w'. split_and!; auto.
  - unfold file_content. rewrite Hd. apply Hc.
  - intros p Hp. rewrite Hd. by apply Ho.
  - by rewrite Hio'.
Qed.

Lemma push_ram_preserves item l w r w' :
  ring_repr cap l w -> push_ram cap item w = Some (r, w') ->
  exists l', ring_repr cap l' w'.
Proof.
  intros H Hpush. destruct (decide (length l = cap - 1)) as [Hfull|Hroom].
  { rewrite (push_ram_full _ cap_pos _ _ item H Hfull) in Hpush.
    simplify_eq. eauto. }
  destruct (malloc_fails (io w)) eqn:Hm.
  { rewrite (push_ram_no_memory _ cap_pos _ _ item H Hroom Hm) in Hpush.
    simplify_eq. eauto. }
  destruct (push_ram_ok _ cap_pos _ _ item H Hroom Hm) as (w1 & Hp & Hw1 & _).
  rewrite Hp in Hpush. simplify_eq. eauto.
Qed.

Lemma ultraqueue_push_preserves path item l w r w' :
  ring_repr cap l w -> ultraqueue_push cap path item w = Some (r, w') ->
  exists l', ring_repr cap l' w'.
Proof.
  intros H Hpush. destruct (decide (length l = cap - 1)) as [Hfull|Hroom].
  - rewrite (ultraqueue_push_full _ _ _ _ H Hfull) in Hpush.
    destruct (spill_to_disk_spec path l w H)
      as (r1 & w1 & k & tail & Hrun & Hr & _).
    rewrite Hrun in Hpush. case_decide.
    + simplify_eq. eauto.
    + by eapply push_ram_preserves.
  - unfold ultraqueue_push, bind in Hpush.
    destruct (push_ram cap item w) as [[r1 w1]|] eqn:Hp; [|done].
    assert (r1 <> (-1)%Z).
    { destruct (malloc_fails (io w)) eqn:Hm.
      - rewrite (push_ram_no_memory _ cap_pos _ _ item H Hroom Hm) in Hp.
        by simplify_eq.
      - destruct (push_ram_ok _ cap_pos _ _ item H Hroom Hm)
          as (w2 & Hp2 & _). rewrite Hp2 in Hp. by simplify_eq. }
    rewrite decide_False in Hpush by done. unfold ret in Hpush.
    simplify_eq. by eapply push_ram_preserves.
Qed.

(** A run of pushes that all find room stays in the RAM tier. *)
Lemma push_all_room path items : forall l w,
  ring_repr cap l w -> length l + length items < cap ->
  malloc_fails (io w) = false ->
  exists w',
    push_all cap path items w = Some (replicate (length items) 0%Z, w') /\
    ring_repr cap (l ++ items) w' /\ disk w' = disk w /\ io w' = io w.
Proof.
  induction items as [|item items IH]; intros l w H Hlen Hm; simpl in *.
  - exists w. rewrite app_nil_r. by split_and!.
  - destruct (ultraqueue_push_room path item l w H ltac:(lia) Hm)
      as (w1 & Hpush & H1 & Hd1 & Hio1).
    destruct (IH (l ++ [item]) w1 H1) as (w' & Hrun & H' & Hd & Hio).
    { rewrite length_app; simpl; lia. }
    { by rewrite Hio1. }
    exists w'. unfold bind. rewrite Hpush, Hrun. unfold ret.
    rewrite <- app_assoc in H'. split_and!; auto; congruence.
Qed.

Lemma push_all_app path items1 items2 w rs1 w1 :
  push_all cap path items1 w = Some (rs1, w1) ->
  push_all cap path (items1 ++ items2) w =
    match push_all cap path items2 w1 with
    | Some (rs2, w2) => Some (rs1 ++ rs2, w2)
    | None => None
    end.
Proof.
  revert w rs1. induction items1 as [|item items1 IH]; intros w rs1 Hrun;
    simpl in *.
  - unfold ret in Hrun. simplify_eq.
    by destruct (push_all cap path items2 w1) as [[]|].
  - unfold bind in *.
    destruct (ultraqueue_push cap path item w) as [[r w0]|]; [|done].
    destruct (push_all cap path items1 w0) as [[rs w0']|] eqn:Hrest; [|done].
    unfold ret in Hrun. simplify_eq. rewrite (IH _ _ Hrest).
    by destruct (push_all cap path items2 w1) as [[]|].
Qed.

(** ** Length *)

Lemma ultraqueue_len_eq path l w :
  ring_repr cap l w ->
  ultraqueue_len cap path w =
    Some (if fopen_r_fails (io w) then Z.of_nat (length l)
          else count_newlines (file_content path w) (Z.of_nat (length l)), w).
Proof.
  intros H. unfold ultraqueue_len, bind, fopen_r, gets, ret, file_content.
  rewrite (ring_repr_count _ cap_pos _ _ H).
  destruct (fopen_r_fails (io w)); [done|].
  by destruct (disk w !! path).
Qed.

End DiskTier.

(** ** Reading lines *)

Lemma MAX_LINE_ge : 2 <= MAX_LINE.
Proof. unfold MAX_LINE. lia. Qed.

Lemma c_str_id s : NUL ∉ s -> c_str s = s.
Proof.
  induction s as [|c s IH]; intros Hs; simpl; [done|].
  apply not_elem_of_cons in Hs as [Hne Hs].
  rewrite decide_False by done. by rewrite IH.
Qed.

Lemma fgets_aux_app n fp : (fgets_aux n fp).1 ++ (fgets_aux n fp).2 = fp.
Proof.
  revert fp. induction n as [|n IH]; intros [|c fp]; cbn [fgets_aux]; try done.
  case_decide; [done|]. specialize (IH fp).
  destruct (fgets_aux n fp) as [line rest]; simpl in *. by rewrite IH.
Qed.

Lemma fgets_split size fp line rest :
  fgets size fp = Some (line, rest) -> line ++ rest = fp.
Proof.
  unfold fgets. destruct fp as [|c fp]; [done|]. intros [= Heq].
  pose proof (fgets_aux_app (size - 1) (c :: fp)) as Happ.
  by rewrite Heq in Happ.
Qed.

Lemma fgets_progress size fp line rest :
  2 <= size -> fgets size fp = Some (line, rest) -> length rest < length fp.
Proof.
  intros Hsize. unfold fgets. destruct fp as [|c fp]; [done|].
  destruct (size - 1) as [|n] eqn:Hn; [lia|]. cbn [fgets_aux].
  case_decide.
  - intros [= <- <-]. simpl. lia.
  - pose proof (fgets_aux_app n fp) as Happ.
    destruct (fgets_aux n fp) as [line' rest']; simpl in *.
    intros [= <- <-]. rewrite <- Happ, length_app. lia.
Qed.

(** A line that fits in the buffer is read whole, with its newline. *)
Lemma fgets_aux_line n x rest :
  newline ∉ x -> length x < n ->
  fgets_aux n (x ++ newline :: rest) = (x ++ [newline], rest).
Proof.
  revert n. induction x as [|c x IH]; intros [|n] Hx Hn; simpl in Hn; try lia.
  - cbn [app fgets_aux]. by rewrite decide_True.
  - apply not_elem_of_cons in Hx as [Hne Hx].
    cbn [app fgets_aux]. rewrite decide_False by done.
    rewrite IH by (done || lia). done.
Qed.

(** A line that does not fit is cut after [n] bytes. *)
Lemma fgets_aux_long n x rest :
  newline ∉ x -> n <= length x ->
  fgets_aux n (x ++ rest) = (take n x, drop n x ++ rest).
Proof.
  revert x. induction n as [|n IH]; intros x Hx Hn.
  - done.
  - destruct x as [|c x]; simpl in Hn; [lia|].
    apply not_elem_of_cons in Hx as [Hne Hx].
    cbn [app fgets_aux take drop]. rewrite decide_False by done.
    rewrite IH by (done || lia). done.
Qed.

Lemma strip_newline_id s : newline ∉ s -> strip_newline s = s.
Proof.
  intros Hs. unfold strip_newline. destruct (last s) as [c|] eqn:Hlast; [|done].
  apply last_Some_elem_of in Hlast. case_decide; [by subst|done].
Qed.

Lemma strip_newline_take n x :
  newline ∉ x -> strip_newline (take n (x ++ [newline])) = take n x.
Proof.
  intros Hx. destruct (decide (n <= length x)) as [Hle|Hgt].
  - rewrite take_app_le by done. apply strip_newline_id.
    intros Hin. apply Hx. apply elem_of_take in Hin as (i & Hi & _).
    by eapply list_elem_of_lookup_2.
  - rewrite !take_ge by (rewrite ?length_app; simpl; lia).
    unfold strip_newline. rewrite last_snoc, decide_True by done.
    by rewrite removelast_last.
Qed.

(** ** Pop from the disk tier *)

Lemma after_write_no_faults path bytes w :
  writes_left (io w) = None ->
  after_write path bytes w =
    set_disk (<[path := file_content path w ++ bytes]> (disk w)) w.
Proof.
  destruct w as [b s e d [m r a wr t wl]]; simpl. intros ->. done.
Qed.

Lemma set_disk_id w : set_disk (disk w) w = w.
Proof. by destruct w. Qed.

Lemma fputs_temp_ok s temp w :
  writes_left (io w) = None -> fputs_temp s temp w = Some (temp ++ s, w).
Proof. intros Hn. unfold fputs_temp, bind, write_ok, ret. by rewrite Hn. Qed.

(** After the first line, the scan copies the rest of the file. *)
Lemma scan_lines_rest out buf_size w : forall fuel fp temp,
  NUL ∉ fp -> writes_left (io w) = None -> length fp < fuel ->
  scan_lines fuel fp true out buf_size temp w = Some ((true, out, temp ++ fp), w).
Proof.
  induction fuel as [|fuel IH]; intros fp temp Hnul Hn Hfuel; [lia|].
  cbn [scan_lines]. destruct (fgets MAX_LINE fp) as [[line rest]|] eqn:Hget.
  - pose proof (fgets_split _ _ _ _ Hget) as Hsplit.
    pose proof (fgets_progress _ _ _ _ MAX_LINE_ge Hget) as Hlt.
    rewrite <- Hsplit in Hnul. apply not_elem_of_app in Hnul as [Hl Hr].
    unfold bind. rewrite fputs_temp_ok, c_str_id by done.
    rewrite IH by (done || lia). by rewrite <- app_assoc, Hsplit.
  - destruct fp; [|done]. by rewrite app_nil_r.
Qed.

Lemma scan_lines_first fp line rest out n w :
  fgets MAX_LINE fp = Some (line, rest) ->
  NUL ∉ fp -> writes_left (io w) = None ->
  scan_lines (S (length fp)) fp false out (S n) [] w =
    Some ((true, strip_newline (take n line), rest), w).
Proof.
  intros Hget Hnul Hn. cbn [scan_lines]. rewrite Hget.
  pose proof (fgets_split _ _ _ _ Hget) as Hsplit.
  pose proof (fgets_progress _ _ _ _ MAX_LINE_ge Hget) as Hlt.
  rewrite <- Hsplit in Hnul. apply not_elem_of_app in Hnul as [Hl Hr].
  unfold bind, strncpy_nul, ret. rewrite c_str_id by done.
  by rewrite scan_lines_rest by (done || lia).
Qed.

Lemma copy_back_ok path : forall fuel temp w c0,
  NUL ∉ temp -> writes_left (io w) = None -> length temp < fuel ->
  disk w !! path = Some c0 ->
  copy_back fuel temp path w =
    Some (tt, set_disk (<[path := c0 ++ temp]> (disk w)) w).
Proof.
  induction fuel as [|fuel IH]; intros temp w c0 Hnul Hn Hfuel Hc0; [lia|].
  cbn [copy_back]. destruct (fgets MAX_LINE temp) as [[line rest]|] eqn:Hget.
  - pose proof (fgets_split _ _ _ _ Hget) as Hsplit.
    pose proof (fgets_progress _ _ _ _ MAX_LINE_ge Hget) as Hlt.
    rewrite <- Hsplit in Hnul. apply not_elem_of_app in Hnul as [Hl Hr].
    unfold bind, fputs_file. rewrite fwrite_file_eq.
    rewrite decide_False by (by rewrite Hn).
    rewrite c_str_id, after_write_no_faults by done.
    unfold file_content. rewrite Hc0; simpl.
    rewrite (IH rest _ (c0 ++ line)); try done; try lia.
    + simpl. by rewrite insert_insert_eq, <- app_assoc, Hsplit.
    + simpl. by rewrite lookup_insert_eq.
  - destruct temp; [|done]. unfold ret.
    by rewrite app_nil_r, insert_id, set_disk_id.
Qed.

(** Whatever the bytes of the file, both loops of a disk pop end. *)
Lemma scan_lines_rest_total out buf_size w : forall fuel fp temp,
  writes_left (io w) = None -> length fp < fuel ->
  exists temp',
    scan_lines fuel fp true out buf_size temp w = Some ((true, out, temp'), w).
Proof.
  induction fuel as [|fuel IH]; intros fp temp Hn Hfuel; [lia|].
  cbn [scan_lines]. destruct (fgets MAX_LINE fp) as [[line rest]|] eqn:Hget.
  - pose proof (fgets_progress _ _ _ _ MAX_LINE_ge Hget) as Hlt.
    unfold bind. rewrite fputs_temp_ok by done. apply IH; [done|lia].
  - by eexists.
Qed.

Lemma copy_back_total path : forall fuel temp w,
  length temp < fuel -> exists w', copy_back fuel temp path w = Some (tt, w').
Proof.
  induction fuel as [|fuel IH]; intros temp w Hfuel; [lia|].
  cbn [copy_back]. destruct (fgets MAX_LINE temp) as [[line rest]|] eqn:Hget.
  - pose proof (fgets_progress _ _ _ _ MAX_LINE_ge Hget) as Hlt.
    unfold bind, fputs_file. rewrite fwrite_file_eq.
    case_decide; apply IH; lia.
  - by eexists.
Qed.

Section PopDisk.

Context (cap : nat) (cap_pos : 0 < cap).

(** A pop that finds the RAM tier empty and reads the first line of the
    file: the line goes to [out_buf] and the rest of the file replaces it. *)
Lemma ultraqueue_pop_disk path w content line rest out n :
  ring_repr cap [] w -> io w = no_faults ->
  disk w !! path = Some content ->
  fgets MAX_LINE content = Some (line, rest) ->
  NUL ∉ content ->
  ultraqueue_pop cap path out (S n) w =
    Some ((0%Z, strip_newline (take n line)),
          set_disk (<[path := rest]> (disk w)) w).
Proof.
  intros H Hio Hdisk Hget Hnul.
  assert (Hn : writes_left (io w) = None) by (by rewrite Hio).
  pose proof (fgets_split _ _ _ _ Hget) as Hsplit.
  assert (Hrest : NUL ∉ rest).
  { rewrite <- Hsplit in Hnul. by apply not_elem_of_app in Hnul as [_ ?]. }
  unfold ultraqueue_pop, bind at 1.
  rewrite (pop_ram_empty _ cap_pos _ _ _ H). cbn [fst snd].
  rewrite decide_False by done.
  unfold bind at 1, fopen_r, gets. rewrite Hio; cbn [fopen_r_fails no_faults].
  rewrite Hdisk. unfold bind at 1, tmpfile, gets.
  rewrite Hio; cbn [tmpfile_fails no_faults negb].
  unfold bind at 1. rewrite (scan_lines_first _ _ _ _ _ _ Hget Hnul Hn).
  unfold bind at 1, fopen_w. rewrite Hio; cbn [fopen_w_fails no_faults negb].
  unfold bind at 1.
  rewrite (copy_back_ok path _ rest _ []); try done; try lia.
  - unfold ret. simpl. by rewrite insert_insert_eq.
  - simpl. by rewrite lookup_insert_eq.
Qed.

(** What such a pop returns, whatever the bytes after the first line. *)
Lemma ultraqueue_pop_disk_out path w content line rest out n :
  ring_repr cap [] w -> io w = no_faults ->
  disk w !! path = Some content ->
  fgets MAX_LINE content = Some (line, rest) ->
  fst <$> ultraqueue_pop cap path out (S n) w =
    Some (0%Z, strip_newline (take n (c_str line))).
Proof.
  intros H Hio Hdisk Hget.
  assert (Hn : writes_left (io w) = None) by (by rewrite Hio).
  pose proof (fgets_progress _ _ _ _ MAX_LINE_ge Hget) as Hlt.
  unfold ultraqueue_pop, bind at 1.
  rewrite (pop_ram_empty _ cap_pos _ _ _ H). cbn [fst snd].
  rewrite decide_False by done.
  unfold bind at 1, fopen_r, gets. rewrite Hio; cbn [fopen_r_fails no_faults].
  rewrite Hdisk. unfold bind at 1, tmpfile, gets.
  rewrite Hio; cbn [tmpfile_fails no_faults negb].
  unfold bind at 1. cbn [scan_lines]. rewrite Hget.
  unfold bind at 1, strncpy_nul, ret.
  destruct (scan_lines_rest_total (strip_newline (take n (c_str line))) (S n)
              w (length content) rest [] Hn Hlt) as (temp & ->).
  unfold bind at 1, fopen_w. rewrite Hio; cbn [fopen_w_fails no_faults negb].
  unfold bind at 1.
  destruct (copy_back_total path (S (length temp)) temp
              (set_disk (<[path:=[]]> (disk w)) w) ltac:(lia)) as (w' & ->).
  done.
Qed.

(** The same pop on an existing file with no bytes. *)
Lemma ultraqueue_pop_disk_empty path w out buf_size :
  ring_repr cap [] w -> io w = no_faults ->
  disk w !! path = Some [] ->
  ultraqueue_pop cap path out buf_size w = Some (((-4)%Z, out), w).
Proof.
  intros H Hio Hdisk.
  unfold ultraqueue_pop, bind at 1.
  rewrite (pop_ram_empty _ cap_pos _ _ _ H). cbn [fst snd].
  rewrite decide_False by done.
  unfold bind at 1, fopen_r, gets. rewrite Hio; cbn [fopen_r_fails no_faults].
  rewrite Hdisk. unfold bind at 1, tmpfile, gets.
  rewrite Hio; cbn [tmpfile_fails no_faults negb].
  unfold bind at 1. cbn [scan_lines length fgets]. unfold ret at 1.
  unfold bind at 1, fopen_w. rewrite Hio; cbn [fopen_w_fails no_faults negb].
  unfold bind at 1. cbn [copy_back length fgets]. unfold ret.
  by rewrite insert_id, set_disk_id.
Qed.

(** A pop that cannot open the file, because it is missing or because
    [fopen] fails. *)
Lemma ultraqueue_pop_no_file path w out buf_size :
  ring_repr cap [] w ->
  disk w !! path = None \/ fopen_r_fails (io w) = true ->
  ultraqueue_pop cap path out buf_size w = Some (((-1)%Z, out), w).
Proof.
  intros H Hopen. unfold ultraqueue_pop, bind at 1.
  rewrite (pop_ram_empty _ cap_pos _ _ _ H). cbn [fst snd].
  rewrite decide_False by done.
  unfold bind at 1, fopen_r, gets.
  destruct Hopen as [->| ->]; [|done]. by destruct (fopen_r_fails (io w)).
Qed.

(** A pop that finds an item in the RAM tier does not look at the disk. *)
Lemma ultraqueue_pop_ram path x l w out n :
  ring_repr cap (x :: l) w ->
  exists w',
    ultraqueue_pop cap path out (S n) w = Some ((0%Z, take n x), w') /\
    ring_repr cap l w' /\ disk w' = disk w /\ io w' = io w.
Proof.
  intros H.
  destruct (pop_ram_ok _ cap_pos _ _ _ out n H) as (w' & Hpop & Hw').
  exists w'. split; [|done]. unfold ultraqueue_pop, bind at 1.
  rewrite Hpop. cbn [fst snd]. by rewrite decide_True.
Qed.

End PopDisk.

(** ** The operations keep the RAM tier well formed *)

Lemma write_ok_same_ram w b w' : write_ok w = Some (b, w') -> same_ram w w'.
Proof.
  unfold write_ok. destruct (writes_left (io w)) as [[|n]|];
    intros [= <- <-]; done.
Qed.

Lemma same_ram_trans w1 w2 w3 : same_ram w1 w2 -> same_ram w2 w3 -> same_ram w1 w3.
Proof. unfold same_ram. intros (-> & -> & ->) (-> & -> & ->). done. Qed.

Lemma scan_lines_same_ram buf_size : forall fuel fp found out temp w r w',
  scan_lines fuel fp found out buf_size temp w = Some (r, w') -> same_ram w w'.
Proof.
  induction fuel as [|fuel IH]; intros fp found out temp w r w'; [done|].
  cbn [scan_lines]. destruct (fgets MAX_LINE fp) as [[line rest]|].
  - destruct found.
    + unfold bind at 1, fputs_temp, bind at 1.
      destruct (write_ok w) as [[b w1]|] eqn:Hw; [|done].
      unfold ret. intros Hrun. apply IH in Hrun.
      apply write_ok_same_ram in Hw. by eapply same_ram_trans.
    + unfold bind, strncpy_nul. destruct buf_size; [done|]. apply IH.
  - by intros [= <- <-].
Qed.

Lemma copy_back_same_ram path : forall fuel temp w r w',
  copy_back fuel temp path w = Some (r, w') -> same_ram w w'.
Proof.
  induction fuel as [|fuel IH]; intros temp w r w'; [done|].
  cbn [copy_back]. destruct (fgets MAX_LINE temp) as [[line rest]|].
  - unfold bind, fputs_file. rewrite fwrite_file_eq. case_decide.
    + apply IH.
    + intros Hrun. apply IH in Hrun.
      eapply same_ram_trans; [apply after_write_same_ram|done].
  - by intros [= <- <-].
Qed.

Section Preservation.

Context (cap : nat) (cap_pos : 0 < cap).

Lemma ultraqueue_pop_preserves path out buf_size l w r w' :
  ring_repr cap l w ->
  ultraqueue_pop cap path out buf_size w = Some (r, w') ->
  exists l', ring_repr cap l' w'.
Proof.
  intros H. destruct l as [|x l].
  - unfold ultraqueue_pop, bind at 1.
    rewrite (pop_ram_empty _ cap_pos _ _ _ H). cbn [fst snd].
    rewrite decide_False by done. unfold bind at 1, fopen_r, gets.
    destruct (if fopen_r_fails (io w) then None else disk w !! path)
      as [content|]; [|intros [= <- <-]; eauto].
    unfold bind at 1, tmpfile, gets.
    destruct (negb (tmpfile_fails (io w))); cbn [negb];
      [|intros [= <- <-]; eauto].
    unfold bind at 1.
    destruct (scan_lines _ _ _ _ _ _ w) as [[[[found o] temp] w1]|] eqn:Hscan;
      [|done].
    apply scan_lines_same_ram in Hscan.
    unfold bind at 1, fopen_w. destruct (fopen_w_fails (io w1)); cbn [negb].
    + intros [= <- <-]. exists []. by eapply ring_repr_same_ram.
    + unfold bind at 1.
      destruct (copy_back _ _ _ _) as [[[] w2]|] eqn:Hcopy; [|done].
      apply copy_back_same_ram in Hcopy. intros [= <- <-]. exists [].
      eapply ring_repr_same_ram; [|done].
      eapply same_ram_trans; [|done]. eapply same_ram_trans; done.
  - destruct buf_size as [|n].
    + unfold ultraqueue_pop, bind at 1.
      by rewrite (pop_ram_zero _ cap_pos _ _ _ _ H).
    + destruct (ultraqueue_pop_ram _ cap_pos path _ _ _ out n H)
        as (w1 & Hpop & H1 & _).
      rewrite Hpop. intros [= <- <-]. eauto.
Qed.

Lemma ultraqueue_len_world path w r w' :
  ultraqueue_len cap path w = Some (r, w') -> w' = w.
Proof.
  unfold ultraqueue_len, bind, fopen_r, gets.
  destruct (if fopen_r_fails (io w) then None else disk w !! path);
    by intros [= <- <-].
Qed.

Lemma reachable_ring_repr w : reachable cap w -> exists l, ring_repr cap l w.
Proof.
  induction 1 as [d f|w path item r w' _ [l IH] Hop
                 |w path out n r w' _ [l IH] Hop
                 |w path r w' _ [l IH] Hop
                 |w d f _ [l IH]].
  - exists []. by apply ring_repr_initial.
  - by eapply ultraqueue_push_preserves.
  - by eapply ultraqueue_pop_preserves.
  - apply ultraqueue_len_world in Hop as ->. eauto.
  - exists l. by apply (ring_repr_same_ram _ _ w).
Qed.

End Preservation.

Lemma file_content_lookup path w c :
  file_content path w = c -> c <> [] -> disk w !! path = Some c.
Proof.
  unfold file_content. destruct (disk w !! path); simpl; intros <-; done.
Qed.


Lemma lines_no_nul l : Forall (fun s => NUL ∉ s) l -> NUL ∉ lines l.
Proof.
  induction 1 as [|s l Hs _ IH]; [by apply not_elem_of_nil|].
  rewrite lines_cons. apply not_elem_of_app. split; [done|].
  by apply not_elem_of_cons.
Qed.

(** * The properties of the specification *)

(** C6 — Capacity invariant: starting from an empty RAM tier with no disk
    file at [path], a run of N pushes with N below the RAM capacity, while
    [strdup] succeeds, returns 0 every time; then [ultraqueue_len] returns
    N, and the file system is the one before the run, so no disk file has
    been created. *)
Theorem capacity_invariant cap path items w :
  ring_repr cap [] w ->
  disk w !! path = None ->
  malloc_fails (io w) = false ->
  length items < cap ->
  exists w',
    push_all cap path items w = Some (replicate (length items) 0%Z, w') /\
    ultraqueue_len cap path w' = Some (Z.of_nat (length items), w') /\
    disk w' = disk w.
Proof.
  intros H Hfile Hm Hlen. assert (cap_pos : 0 < cap) by lia.
  destruct (push_all_room cap cap_pos path items [] w H Hlen Hm)
    as (w' & Hrun & H' & Hd & Hio).
  exists w'. split_and!; try done.
  rewrite (ultraqueue_len_eq cap cap_pos path _ _ H'). simpl app.
  unfold file_content. rewrite Hd, Hfile. by destruct (fopen_r_fails (io w')).
Qed.

(** C7 — Ring-buffer state invariant: in every world that the public
    operations can reach from the initial one, [ram_start = ram_end] holds
    exactly when no slot of the array is in use, [(ram_end + 1) mod capacity
    = ram_start] holds exactly when capacity - 1 slots are in use, and never
    more than capacity - 1 slots are in use. *)
Theorem ring_buffer_invariant cap w :
  0 < cap -> reachable cap w -> ring_invariant cap w.
Proof.
  intros cap_pos Hreach.
  destruct (reachable_ring_repr cap cap_pos w Hreach) as [l H].
  by eapply ring_repr_invariant.
Qed.


(** C4 — Spill-failure push semantics: when a push finds the RAM tier full
    and the spill it starts fails, the push returns the code of the spill
    (-1 for the open, -2 or -3 for a write) and leaves the world that the
    spill left.  The RAM tier then holds a suffix of the items it held, and
    the file holds its old bytes followed by the lines of the items that left
    the RAM tier and at most one more of them without its newline; the item
    being pushed is in neither. *)
Theorem spill_failure_push cap path item l w r w' :
  0 < cap ->
  ring_repr cap l w -> length l = cap - 1 ->
  spill_to_disk cap path w = Some (r, w') -> r <> 0%Z ->
  ultraqueue_push cap path item w = Some (r, w') /\
  (r = (-1)%Z \/ r = (-2)%Z \/ r = (-3)%Z) /\
  exists k tail,
    ring_repr cap (drop k l) w' /\
    file_content path w' = file_content path w ++ lines (take k l) ++ tail /\
    (tail = [] \/ l !! k = Some tail) /\
    forall p, p <> path -> disk w' !! p = disk w !! p.
Proof.
  intros cap_pos H Hfull Hspill Hr.
  rewrite (ultraqueue_push_full cap cap_pos path item l w H Hfull), Hspill.
  rewrite decide_True by done. split; [done|].
  destruct (spill_to_disk_spec cap cap_pos path l w H)
    as (r1 & w1 & k & tail & Hrun & Hrepr & Hc & Ho & Hcase & _).
  rewrite Hspill in Hrun. simplify_eq. split.
  - destruct Hcase as [(? & _)|[(? & _)|[(? & _)|(? & _)]]]; auto. done.
  - exists k, tail. split_and!; auto.
    destruct Hcase as [(_ & _ & ?)|[(_ & _ & ? & _)|[(_ & _ & ?)|(_ & ?)]]];
      auto.
Qed.

(** C5 — Compaction on a disk pop: with the RAM tier empty and the file
    holding exactly the lines [x; y; z], where [x] fits in the line buffer
    and in the caller's buffer, a pop returns 0 with [x], without its
    newline, in [out_buf], and leaves the file holding exactly the lines
    [y; z]. *)
Theorem disk_pop_compaction cap path x y z w out n :
  0 < cap ->
  ring_repr cap [] w -> io w = no_faults ->
  disk w !! path = Some (lines [x; y; z]) ->
  NUL ∉ x -> NUL ∉ y -> NUL ∉ z -> newline ∉ x ->
  length x < MAX_LINE - 1 -> length x <= n ->
  ultraqueue_pop cap path out (S n) w =
    Some ((0%Z, x), set_disk (<[path := lines [y; z]]> (disk w)) w).
Proof.
  intros cap_pos H Hio Hdisk Hx Hy Hz Hnl Hfit Hbuf.
  rewrite (ultraqueue_pop_disk cap cap_pos path w _ (x ++ [newline])
             (lines [y; z]) out n H Hio Hdisk).
  - by rewrite strip_newline_take, take_ge.
  - rewrite lines_cons. unfold fgets.
    destruct (x ++ newline :: lines [y; z]) eqn:Heq;
      [by destruct x|rewrite <- Heq].
    by rewrite fgets_aux_line.
  - apply lines_no_nul. by repeat constructor.
Qed.

(** C10 — Disk reads are bounded by the 4096-byte line buffer: when the
    first line of the file, with its newline, is 4096 bytes or longer, a
    disk pop reads only its first 4095 bytes, returns them (cut to the
    caller's buffer) as the item, and leaves the remaining bytes of the line
    at the start of the rewritten file, where they are the next record. *)
Theorem long_line_split cap path x rest w out n :
  0 < cap ->
  ring_repr cap [] w -> io w = no_faults ->
  disk w !! path = Some (x ++ newline :: rest) ->
  NUL ∉ x -> NUL ∉ rest -> newline ∉ x ->
  MAX_LINE <= length (x ++ [newline]) ->
  ultraqueue_pop cap path out (S n) w =
    Some ((0%Z, take (min n (MAX_LINE - 1)) x),
          set_disk
            (<[path := drop (MAX_LINE - 1) x ++ newline :: rest]> (disk w)) w).
Proof.
  intros cap_pos H Hio Hdisk Hx Hrest Hnl Hlong.
  rewrite length_app in Hlong; simpl in Hlong.
  rewrite (ultraqueue_pop_disk cap cap_pos path w _ (take (MAX_LINE - 1) x)
             (drop (MAX_LINE - 1) x ++ newline :: rest) out n H Hio Hdisk).
  - rewrite take_take. rewrite strip_newline_id; [done|].
    intros Hin. apply Hnl. apply elem_of_take in Hin as (i & Hi & _).
    by eapply list_elem_of_lookup_2.
  - unfold fgets. destruct (x ++ newline :: rest) eqn:Heq;
      [by destruct x|rewrite <- Heq].
    rewrite fgets_aux_long; [done|done|lia].
  - apply not_elem_of_app. split; [done|]. by apply not_elem_of_cons.
Qed.

(** ** Spills and the order of pops *)

(** The pushes that fill an empty RAM tier and the one that follows: the
    last push spills every earlier item and stays alone in the RAM tier. *)
Lemma push_all_fill_then_spill cap path items x w :
  1 < cap ->
  ring_repr cap [] w -> io w = no_faults ->
  length items = cap - 1 ->
  exists w',
    push_all cap path (items ++ [x]) w = Some (replicate cap 0%Z, w') /\
    ring_repr cap [x] w' /\
    file_content path w' = file_content path w ++ lines items /\
    (forall p, p <> path -> disk w' !! p = disk w !! p) /\
    io w' = no_faults.
Proof.
  intros Hcap H Hio Hlen. assert (cap_pos : 0 < cap) by lia.
  assert (Hm : malloc_fails (io w) = false) by (by rewrite Hio).
  destruct (push_all_room cap cap_pos path items [] w H
              ltac:(simpl; lia) Hm) as (w1 & Hrun1 & H1 & Hd1 & Hio1).
  simpl app in H1. rewrite Hio in Hio1.
  assert (Hm1 : malloc_fails (io w1) = false) by (by rewrite Hio1).
  assert (Ha1 : fopen_a_fails (io w1) = false) by (by rewrite Hio1).
  assert (Hw1 : writes_left (io w1) = None) by (by rewrite Hio1).
  destruct (ultraqueue_push_spill cap cap_pos path x items w1 Hcap H1 Hlen
              Hm1 Ha1 Hw1) as (w' & Hpush & H' & Hc & Ho & Hio').
  exists w'. rewrite (push_all_app cap path _ [x] _ _ _ Hrun1).
  cbn [push_all]. unfold bind. rewrite Hpush. unfold ret.
  split_and!; auto.
  - f_equal. f_equal. rewrite Hlen.
    replace cap with (cap - 1 + 1) at 2 by lia.
    by rewrite replicate_add.
  - rewrite Hc. unfold file_content. by rewrite Hd1.
  - intros p Hp. by rewrite Ho, Hd1.
  - by rewrite Hio', Hio1.
Qed.

(** C1 (amended) — Order across the tiers: when the disk file already
    holds older items, [a] first, and the newer items [b] and [c] are then
    pushed into the RAM tier, the next two pops return [b] and then [c], in
    that order, and only the third pop, which finds the RAM tier empty,
    returns [a]: a pop serves the RAM tier first, so an older item on disk
    is returned after the newer items still in RAM. *)
Theorem fifo_across_tiers_ram_first cap path a ds b c w n :
  2 < cap ->
  ring_repr cap [] w -> io w = no_faults ->
  disk w !! path = Some (lines (a :: ds)) -> Forall line_item (a :: ds) ->
  fst <$> (push_all cap path [b; c] ;;; pop_all cap path (S n) 3) w =
    Some [(0%Z, take n b); (0%Z, take n c); (0%Z, take n a)].
Proof.
  intros Hcap H Hio Hdisk Hitems. assert (cap_pos : 0 < cap) by lia.
  assert (Hm : malloc_fails (io w) = false) by (by rewrite Hio).
  destruct (push_all_room cap cap_pos path [b; c] [] w H
              ltac:(simpl; lia) Hm) as (w1 & Hrun & H1 & Hd1 & Hio1).
  simpl app in H1.
  destruct (ultraqueue_pop_ram cap cap_pos path b [c] w1 [] n H1)
    as (w2 & Hpop1 & H2 & Hd2 & Hio2).
  destruct (ultraqueue_pop_ram cap cap_pos path c [] w2 [] n H2)
    as (w3 & Hpop2 & H3 & Hd3 & Hio3).
  assert (Hio' : io w3 = no_faults) by (by rewrite Hio3, Hio2, Hio1).
  assert (Hdisk' : disk w3 !! path = Some (a ++ newline :: lines ds)).
  { by rewrite Hd3, Hd2, Hd1, <- lines_cons. }
  pose proof (Forall_inv Hitems) as (Ha & Hnl & Hfit).
  assert (Hget : fgets MAX_LINE (a ++ newline :: lines ds) =
                 Some (a ++ [newline], lines ds)).
  { unfold fgets. destruct (a ++ newline :: lines ds) eqn:Heq;
      [by destruct a|rewrite <- Heq]. by rewrite fgets_aux_line. }
  assert (Hnul : NUL ∉ a ++ newline :: lines ds).
  { rewrite <- lines_cons. apply lines_no_nul.
    eapply Forall_impl; [exact Hitems|]. by intros s [? _]. }
  unfold bind at 1. rewrite Hrun. cbn [pop_all]. unfold bind.
  rewrite Hpop1, Hpop2.
  rewrite (ultraqueue_pop_disk cap cap_pos path w3 _ _ _ [] n H3 Hio' Hdisk'
             Hget Hnul).
  unfold ret. cbn [fmap option_fmap option_map fst].
  by rewrite strip_newline_take.
Qed.

(** C2 (amended) — Spill correctness: pushing exactly capacity - 1 items
    into an empty queue and then one more appends all the capacity - 1
    earlier items to the disk file in the order of their pushes, leaves the
    RAM tier holding the newest item alone, and makes [ultraqueue_len]
    return the capacity. *)
Theorem spill_moves_full_ring cap path items x w :
  1 < cap ->
  ring_repr cap [] w -> io w = no_faults -> file_content path w = [] ->
  length items = cap - 1 ->
  Forall (fun s => newline ∉ s) items ->
  exists w',
    push_all cap path (items ++ [x]) w = Some (replicate cap 0%Z, w') /\
    file_content path w' = lines items /\
    ring_repr cap [x] w' /\
    ultraqueue_len cap path w' = Some (Z.of_nat cap, w').
Proof.
  intros Hcap H Hio Hfile Hlen Hitems. assert (cap_pos : 0 < cap) by lia.
  destruct (push_all_fill_then_spill cap path items x w Hcap H Hio Hlen)
    as (w' & Hrun & H' & Hc & _ & Hio').
  rewrite Hfile in Hc. simpl in Hc.
  exists w'. split_and!; auto.
  rewrite (ultraqueue_len_eq cap cap_pos path _ _ H'), Hio', Hc.
  cbn [fopen_r_fails no_faults]. rewrite count_newlines_lines by done.
  do 2 f_equal. rewrite Hlen. simpl length. lia.
Qed.

(** C3 (amended) — Empty-queue contract: with the RAM tier empty, a pop
    returns -1 when there is no disk file, which is also what it returns
    when the file cannot be opened, and returns -4 when the file exists, is
    empty and can be opened and rewritten; in each case the caller's buffer
    and the world are left as they were. *)
Theorem empty_queue_contract cap path w out buf_size :
  0 < cap -> ring_repr cap [] w ->
  (disk w !! path = None ->
   ultraqueue_pop cap path out buf_size w = Some (((-1)%Z, out), w)) /\
  (fopen_r_fails (io w) = true ->
   ultraqueue_pop cap path out buf_size w = Some (((-1)%Z, out), w)) /\
  (disk w !! path = Some [] -> io w = no_faults ->
   ultraqueue_pop cap path out buf_size w = Some (((-4)%Z, out), w)).
Proof.
  intros cap_pos H. split_and!.
  - intros Hnone. apply (ultraqueue_pop_no_file cap cap_pos); auto.
  - intros Hopen. apply (ultraqueue_pop_no_file cap cap_pos); auto.
  - intros Hempty Hio. by apply (ultraqueue_pop_disk_empty cap cap_pos).
Qed.

(** C8 (amended) — Pop truncation convention: for every stored item [x]
    and every buffer size of at least one byte, a pop that reaches the item
    returns 0 with a prefix of [x] in the buffer: its first [buf_size - 1]
    bytes when it comes from the RAM tier, and the first [buf_size - 1] of
    its first [MAX_LINE - 1] bytes when it is the first line of the disk
    file.  A truncated item is never reported as an error. *)
Theorem pop_truncates cap path x w out n :
  0 < cap ->
  ((exists l, ring_repr cap (x :: l) w) ->
   fst <$> ultraqueue_pop cap path out (S n) w = Some (0%Z, take n x)) /\
  (ring_repr cap [] w -> io w = no_faults ->
   (exists rest, disk w !! path = Some (x ++ newline :: rest)) ->
   NUL ∉ x -> newline ∉ x ->
   fst <$> ultraqueue_pop cap path out (S n) w =
     Some (0%Z, take (min n (MAX_LINE - 1)) x)).
Proof.
  intros cap_pos. split.
  - intros [l H].
    destruct (ultraqueue_pop_ram cap cap_pos path x l w out n H)
      as (w' & Hpop & _). by rewrite Hpop.
  - intros H Hio (rest & Hdisk) Hx Hnl.
    assert (Hcut : forall k, newline ∉ take k x).
    { intros k Hin. apply Hnl. apply elem_of_take in Hin as (i & Hi & _).
      by eapply list_elem_of_lookup_2. }
    assert (Hcut' : forall k, NUL ∉ take k x).
    { intros k Hin. apply Hx. apply elem_of_take in Hin as (i & Hi & _).
      by eapply list_elem_of_lookup_2. }
    destruct (decide (length x < MAX_LINE - 1)) as [Hshort|Hlong].
    + rewrite (ultraqueue_pop_disk_out cap cap_pos path w _ (x ++ [newline])
                 rest out n H Hio Hdisk).
      * rewrite c_str_id.
        2:{ apply not_elem_of_app. split; [done|].
            apply not_elem_of_cons. split; [done|apply not_elem_of_nil]. }
        rewrite strip_newline_take by done. do 2 f_equal.
        destruct (decide (n <= length x)).
        -- by rewrite Nat.min_l by lia.
        -- by rewrite !take_ge by lia.
      * unfold fgets. destruct (x ++ newline :: rest) eqn:Heq;
          [by destruct x|rewrite <- Heq].
        by rewrite fgets_aux_line.
    + rewrite (ultraqueue_pop_disk_out cap cap_pos path w _
                 (take (MAX_LINE - 1) x)
                 (drop (MAX_LINE - 1) x ++ newline :: rest)
                 out n H Hio Hdisk).
      * rewrite c_str_id by done. rewrite take_take.
        by rewrite strip_newline_id.
      * unfold fgets. destruct (x ++ newline :: rest) eqn:Heq;
          [by destruct x|rewrite <- Heq].
        rewrite fgets_aux_long; [done|done|lia].
Qed.

(** * The properties on concrete queues *)

(** Decidable side conditions on literals are settled by evaluation. *)
Ltac by_evaluation :=
  match goal with
  | |- ?P => exact (bool_decide_unpack P ltac:(vm_compute; exact I))
  end.

Lemma source_capacity_pos : 0 < SOURCE_CAPACITY.
Proof. unfold SOURCE_CAPACITY. lia. Qed.

(** A RAM tier of capacity 2 that holds one item is full. *)
Lemma ring_repr_one_of_two x d f :
  ring_repr 2 [x] (mkWorld [Some x; None] 0 1 d f).
Proof.
  unfold ring_repr; simpl. split_and!; try done; try lia.
  intros [|[|j]] Hj; try done. lia.
Qed.

(** Three pushes at the capacity of the source stay in the RAM tier. *)
Lemma capacity_invariant_witness :
  exists w',
    push_all SOURCE_CAPACITY "q" [str "a"; str "b"; str "c"]
      (initial_world SOURCE_CAPACITY ∅ no_faults)
    = Some ([0; 0; 0]%Z, w') /\
    ultraqueue_len SOURCE_CAPACITY "q" w' = Some (3%Z, w') /\
    disk w' = ∅.
Proof.
  apply (capacity_invariant SOURCE_CAPACITY "q" [str "a"; str "b"; str "c"]
           (initial_world SOURCE_CAPACITY ∅ no_faults)).
  - apply ring_repr_initial, source_capacity_pos.
  - reflexivity.
  - reflexivity.
  - unfold SOURCE_CAPACITY; simpl; lia.
Defined.

(** The world after one push at the capacity of the source. *)
Lemma ring_buffer_invariant_witness :
  ring_invariant SOURCE_CAPACITY
    (world_after (ultraqueue_push SOURCE_CAPACITY "q" (str "a"))
       (initial_world SOURCE_CAPACITY ∅ no_faults)).
Proof.
  apply ring_buffer_invariant.
  - apply source_capacity_pos.
  - apply (reach_push SOURCE_CAPACITY
             (initial_world SOURCE_CAPACITY ∅ no_faults) "q" (str "a") 0%Z).
    + apply reach_init.
    + vm_compute. reflexivity.
Defined.


(** A push on a full RAM tier whose spill cannot open the file. *)
Lemma spill_failure_push_witness :
  let w := mkWorld [Some (str "a"); None] 0 1 ∅
             (mkIo false false true false false None) in
  ultraqueue_push 2 "q" (str "b") w = Some ((-1)%Z, w) /\
  ((-1)%Z = (-1)%Z \/ (-1)%Z = (-2)%Z \/ (-1)%Z = (-3)%Z) /\
  exists k tail,
    ring_repr 2 (drop k [str "a"]) w /\
    file_content "q" w = file_content "q" w ++ lines (take k [str "a"]) ++ tail /\
    (tail = [] \/ [str "a"] !! k = Some tail) /\
    forall p, p <> "q" -> disk w !! p = disk w !! p.
Proof.
  intros w.
  apply (spill_failure_push 2 "q" (str "b") [str "a"] w (-1)%Z w).
  - lia.
  - apply ring_repr_one_of_two.
  - reflexivity.
  - reflexivity.
  - lia.
Defined.

(** A file of three lines at the capacity of the source. *)
Lemma disk_pop_compaction_witness :
  let w := initial_world SOURCE_CAPACITY
             {[ "q" := lines [str "x"; str "y"; str "z"] ]} no_faults in
  ultraqueue_pop SOURCE_CAPACITY "q" [] 16 w =
    Some ((0%Z, str "x"),
          set_disk (<["q" := lines [str "y"; str "z"]]> (disk w)) w).
Proof.
  intros w.
  apply (disk_pop_compaction SOURCE_CAPACITY "q" (str "x") (str "y") (str "z")
           w [] 15).
  - apply source_capacity_pos.
  - apply ring_repr_initial, source_capacity_pos.
  - reflexivity.
  - reflexivity.
  - by_evaluation.
  - by_evaluation.
  - by_evaluation.
  - by_evaluation.
  - by_evaluation.
  - by_evaluation.
Defined.

(** A first line of 5000 bytes and its newline. *)
Lemma long_line_split_witness :
  let x := replicate 5000 "x"%char in
  let w := initial_world SOURCE_CAPACITY
             {[ "q" := x ++ newline :: lines [str "y"] ]} no_faults in
  ultraqueue_pop SOURCE_CAPACITY "q" [] 4800 w =
    Some ((0%Z, take (min 4799 (MAX_LINE - 1)) x),
          set_disk
            (<["q" := drop (MAX_LINE - 1) x ++ newline :: lines [str "y"]]>
               (disk w)) w).
Proof.
  intros x w.
  apply (long_line_split SOURCE_CAPACITY "q" x (lines [str "y"]) w [] 4799).
  - apply source_capacity_pos.
  - apply ring_repr_initial, source_capacity_pos.
  - reflexivity.
  - reflexivity.
  - by_evaluation.
  - by_evaluation.
  - by_evaluation.
  - by_evaluation.
Defined.

(** An item on disk and two pushes at the capacity of the source. *)
Lemma fifo_across_tiers_ram_first_witness :
  fst <$> (push_all SOURCE_CAPACITY "q" [str "b"; str "c"] ;;;
           pop_all SOURCE_CAPACITY "q" 16 3)
            (initial_world SOURCE_CAPACITY {[ "q" := lines [str "a"] ]}
               no_faults)
  = Some [(0%Z, take 15 (str "b")); (0%Z, take 15 (str "c"));
          (0%Z, take 15 (str "a"))].
Proof.
  apply (fifo_across_tiers_ram_first SOURCE_CAPACITY "q" (str "a") []
           (str "b") (str "c")
           (initial_world SOURCE_CAPACITY {[ "q" := lines [str "a"] ]}
              no_faults) 15).
  - unfold SOURCE_CAPACITY. lia.
  - apply ring_repr_initial, source_capacity_pos.
  - reflexivity.
  - reflexivity.
  - by_evaluation.
Defined.

(** Capacity - 1 pushes and one more at the capacity of the source. *)
Lemma spill_moves_full_ring_witness :
  let items := replicate (SOURCE_CAPACITY - 1) (str "old") in
  exists w',
    push_all SOURCE_CAPACITY "q" (items ++ [str "new"])
      (initial_world SOURCE_CAPACITY ∅ no_faults)
    = Some (replicate SOURCE_CAPACITY 0%Z, w') /\
    file_content "q" w' = lines items /\
    ring_repr SOURCE_CAPACITY [str "new"] w' /\
    ultraqueue_len SOURCE_CAPACITY "q" w'
    = Some (Z.of_nat SOURCE_CAPACITY, w').
Proof.
  intros items.
  apply (spill_moves_full_ring SOURCE_CAPACITY "q" items (str "new")
           (initial_world SOURCE_CAPACITY ∅ no_faults)).
  - unfold SOURCE_CAPACITY. lia.
  - apply ring_repr_initial, source_capacity_pos.
  - reflexivity.
  - reflexivity.
  - apply length_replicate.
  - apply Forall_replicate. by_evaluation.
Defined.

(** An empty queue at the capacity of the source. *)
Lemma empty_queue_contract_witness :
  let w := initial_world SOURCE_CAPACITY {[ "q" := [] ]} no_faults in
  (disk w !! "q" = None ->
   ultraqueue_pop SOURCE_CAPACITY "q" [] 16 w = Some (((-1)%Z, []), w)) /\
  (fopen_r_fails (io w) = true ->
   ultraqueue_pop SOURCE_CAPACITY "q" [] 16 w = Some (((-1)%Z, []), w)) /\
  (disk w !! "q" = Some [] -> io w = no_faults ->
   ultraqueue_pop SOURCE_CAPACITY "q" [] 16 w = Some (((-4)%Z, []), w)).
Proof.
  intros w. apply (empty_queue_contract SOURCE_CAPACITY "q" w [] 16).
  - apply source_capacity_pos.
  - apply ring_repr_initial, source_capacity_pos.
Defined.

(** An item of five bytes and a buffer of three. *)
Lemma pop_truncates_witness :
  let w := mkWorld [Some (str "hello"); None] 0 1 ∅ no_faults in
  ((exists l, ring_repr 2 (str "hello" :: l) w) ->
   fst <$> ultraqueue_pop 2 "q" [] 3 w = Some (0%Z, str "he")) /\
  (ring_repr 2 [] w -> io w = no_faults ->
   (exists rest, disk w !! "q" = Some (str "hello" ++ newline :: rest)) ->
   NUL ∉ str "hello" -> newline ∉ str "hello" ->
   fst <$> ultraqueue_pop 2 "q" [] 3 w =
     Some (0%Z, take (min 2 (MAX_LINE - 1)) (str "hello"))).
Proof.
  intros w. apply (pop_truncates 2 "q" (str "hello") w [] 2). lia.
Defined.

(** ** Where the code departs from the specification *)

(** One more push after the pushes that fill and spill the RAM tier: the
    RAM tier holds the last two items. *)
Lemma push_all_capacity_then_one cap path items x y w :
  2 < cap ->
  ring_repr cap [] w -> io w = no_faults ->
  length items = cap - 1 ->
  exists rs w',
    push_all cap path (items ++ [x; y]) w = Some (rs, w') /\
    ring_repr cap [x; y] w' /\
    file_content path w' = file_content path w ++ lines items.
Proof.
  intros Hcap H Hio Hlen. assert (cap_pos : 0 < cap) by lia.
  destruct (push_all_fill_then_spill cap path items x w ltac:(lia) H Hio Hlen)
    as (w1 & Hrun1 & H1 & Hc1 & _ & Hio1).
  assert (Hm1 : malloc_fails (io w1) = false) by (by rewrite Hio1).
  destruct (ultraqueue_push_room cap cap_pos path y [x] w1 H1
              ltac:(simpl; lia) Hm1) as (w2 & Hpush & H2 & Hd2 & _).
  pose proof (push_all_app cap path _ [y] _ _ _ Hrun1) as Happ.
  cbn [push_all] in Happ. unfold bind, ret in Happ. rewrite Hpush in Happ.
  rewrite <- app_assoc in Happ.
  eexists _, w2. split_and!; [exact Happ|done|].
  unfold file_content. rewrite Hd2. exact Hc1.
Qed.

(** C1 — the claim fails.  At the capacity of the source, with [a] on
    disk from an earlier spill and [b], [c] pushed after it, the next two
    pops return [b] and then [c], not [a] and then [b]: the newer items of
    the RAM tier leave before the older item on disk. *)
Lemma fifo_across_tiers_counterexample :
  fst <$> (push_all SOURCE_CAPACITY "q" [str "b"; str "c"] ;;;
           pop_all SOURCE_CAPACITY "q" 16 2)
            (initial_world SOURCE_CAPACITY {[ "q" := lines [str "a"] ]}
               no_faults)
  = Some [(0%Z, str "b"); (0%Z, str "c")].
Proof. vm_compute. reflexivity. Qed.

(** C2 — the claim fails.  After exactly capacity pushes and one more (at
    capacity 3: "1", "2", "3" and then "4") the file holds only the first
    capacity - 1 items and the RAM tier holds two items, the last of the
    capacity items and the newest one.  The same at the capacity of the
    source. *)
Lemma spill_capacity_counterexample :
  (exists w',
     push_all 3 "q" [str "1"; str "2"; str "3"; str "4"]
       (initial_world 3 ∅ no_faults) = Some ([0; 0; 0; 0]%Z, w') /\
     file_content "q" w' = lines [str "1"; str "2"] /\
     ram_buffer w' = [Some (str "3"); Some (str "4"); None] /\
     ram_start w' = 0 /\ ram_end w' = 2) /\
  (let older := replicate (SOURCE_CAPACITY - 1) (str "old") in
   exists rs w',
     push_all SOURCE_CAPACITY "q" (older ++ [str "last"; str "new"])
       (initial_world SOURCE_CAPACITY ∅ no_faults) = Some (rs, w') /\
     ring_repr SOURCE_CAPACITY [str "last"; str "new"] w' /\
     file_content "q" w' = lines older).
Proof.
  split.
  - eexists. split; [vm_compute; reflexivity|]. by vm_compute.
  - intros older.
    assert (Hlen : length older = SOURCE_CAPACITY - 1)
      by apply length_replicate.
    clearbody older.
    pose proof (ring_repr_initial SOURCE_CAPACITY source_capacity_pos
                  ∅ no_faults) as H0.
    assert (Hio : io (initial_world SOURCE_CAPACITY ∅ no_faults) = no_faults)
      by reflexivity.
    assert (Hfile : file_content "q"
                      (initial_world SOURCE_CAPACITY ∅ no_faults) = [])
      by reflexivity.
    set (w0 := initial_world SOURCE_CAPACITY ∅ no_faults) in *.
    clearbody w0.
    assert (Hcap : 2 < SOURCE_CAPACITY) by (unfold SOURCE_CAPACITY; lia).
    destruct (push_all_capacity_then_one SOURCE_CAPACITY "q" older
                (str "last") (str "new") w0 Hcap H0 Hio Hlen)
      as (rs & w' & Hrun & Hr & Hc).
    rewrite Hfile, app_nil_l in Hc.
    exists rs, w'. split_and!; assumption.
Qed.

(** C3 — the claim fails.  A pop on an empty queue with no disk file
    returns -1, and so does a pop on a queue whose file holds an item and
    cannot be opened: the result for "empty" is not distinct from that I/O
    error.  On an empty file the result is another one, -4. *)
Lemma missing_file_counterexample :
  fst <$> ultraqueue_pop SOURCE_CAPACITY "q" [] 16
            (initial_world SOURCE_CAPACITY ∅ no_faults)
  = Some ((-1)%Z, []) /\
  fst <$> ultraqueue_pop SOURCE_CAPACITY "q" [] 16
            (initial_world SOURCE_CAPACITY {[ "q" := lines [str "x"] ]}
               (mkIo false true false false false None))
  = Some ((-1)%Z, []) /\
  fst <$> ultraqueue_pop SOURCE_CAPACITY "q" [] 16
            (initial_world SOURCE_CAPACITY {[ "q" := [] ]} no_faults)
  = Some ((-4)%Z, []).
Proof. split_and!; vm_compute; reflexivity. Qed.

(** C8 — the claim fails for a buffer of size 0: [buf_size - 1] wraps and
    the copy leaves the caller's buffer, so the pop has no defined result,
    from the RAM tier and from the disk alike. *)
Lemma pop_zero_buffer_counterexample :
  (ultraqueue_push SOURCE_CAPACITY "q" (str "hello") ;;;
   ultraqueue_pop SOURCE_CAPACITY "q" [] 0)
    (initial_world SOURCE_CAPACITY ∅ no_faults) = None /\
  ultraqueue_pop SOURCE_CAPACITY "q" [] 0
    (initial_world SOURCE_CAPACITY {[ "q" := lines [str "hello"] ]} no_faults)
  = None.
Proof. split; vm_compute; reflexivity. Qed.

(** * Further properties of the code *)

(** ** Runs of pops *)



Lemma count_newlines_none s count :
  newline ∉ s -> count_newlines s count = count.
Proof.
  revert count. induction s as [|ch s IH]; intros count Hs; [done|].
  apply not_elem_of_cons in Hs as [Hne Hs]. cbn [count_newlines].
  rewrite decide_False by done. by apply IH.
Qed.

Lemma line_items_no_nul items :
  Forall line_item items -> NUL ∉ lines items.
Proof.
  intros H. apply lines_no_nul. eapply Forall_impl; [done|]. by intros s [? _].
Qed.

Lemma line_items_no_newline items :
  Forall line_item items -> Forall (fun s => newline ∉ s) items.
Proof. intros H. eapply Forall_impl; [done|]. by intros s (_ & ? & _). Qed.

Lemma fgets_first_line x rest :
  line_item x ->
  fgets MAX_LINE (x ++ newline :: rest) = Some (x ++ [newline], rest).
Proof.
  intros (_ & Hnl & Hfit). unfold fgets.
  destruct (x ++ newline :: rest) eqn:Heq; [by destruct x|rewrite <- Heq].
  by rewrite fgets_aux_line.
Qed.

(** Pops that find the RAM tier non-empty empty it in order. *)
Lemma pop_all_ram cap path n : forall l w,
  0 < cap -> ring_repr cap l w ->
  exists w',
    pop_all cap path (S n) (length l) w =
      Some (map (fun x => (0%Z, take n x)) l, w') /\
    ring_repr cap [] w' /\ disk w' = disk w /\ io w' = io w.
Proof.
  induction l as [|x l IH]; intros w cap_pos H.
  - by exists w.
  - destruct (ultraqueue_pop_ram cap cap_pos path x l w [] n H)
      as (w1 & Hpop & H1 & Hd1 & Hio1).
    destruct (IH w1 cap_pos H1) as (w' & Hrun & H' & Hd & Hio).
    exists w'. cbn [pop_all length map]. unfold bind.
    rewrite Hpop, Hrun. unfold ret. split_and!; auto; congruence.
Qed.

(** Pops that find the RAM tier empty take the lines of the file in order. *)
Lemma pop_all_disk cap path n : forall k items w,
  0 < cap -> ring_repr cap [] w -> io w = no_faults ->
  disk w !! path = Some (lines items) ->
  Forall line_item items -> k <= length items ->
  pop_all cap path (S n) k w =
    Some (map (fun x => (0%Z, take n x)) (take k items),
          set_disk (<[path := lines (drop k items)]> (disk w)) w).
Proof.
  induction k as [|k IH]; intros items w cap_pos H Hio Hdisk Hitems Hk.
  - cbn [pop_all take drop map]. unfold ret.
    by rewrite insert_id, set_disk_id.
  - destruct items as [|x items]; simpl in Hk; [lia|].
    apply Forall_cons in Hitems as [Hx Hitems].
    rewrite lines_cons in Hdisk.
    cbn [pop_all take drop map]. unfold bind.
    rewrite (ultraqueue_pop_disk cap cap_pos path w _ (x ++ [newline])
               (lines items) [] n H Hio Hdisk (fgets_first_line _ _ Hx)).
    2:{ rewrite <- lines_cons. apply line_items_no_nul. by constructor. }
    rewrite (IH items); try done; try lia.
    + unfold ret. simpl. destruct Hx as (_ & Hnl & _).
      by rewrite strip_newline_take, insert_insert_eq.
    + simpl. by rewrite lookup_insert_eq.
Qed.

(** X1 — Round trip through the RAM tier: when the items pushed fit beside
    the items [l] that the RAM tier holds (wherever the cursors stand), as
    many pops as there are items return 0 each time with the items in the
    order of their pushes, each cut to [buf_size - 1] bytes; the RAM tier is
    then empty and the file system was never touched. *)
Theorem ram_fifo_round_trip cap path items l w n :
  ring_repr cap l w ->
  length l + length items < cap ->
  malloc_fails (io w) = false ->
  exists w',
    (push_all cap path items ;;;
     pop_all cap path (S n) (length (l ++ items))) w =
      Some (map (fun x => (0%Z, take n x)) (l ++ items), w') /\
    ring_repr cap [] w' /\ disk w' = disk w.
Proof.
  intros H Hlen Hm. assert (cap_pos : 0 < cap) by lia.
  destruct (push_all_room cap cap_pos path items l w H Hlen Hm)
    as (w1 & Hrun & H1 & Hd1 & _).
  destruct (pop_all_ram cap path n (l ++ items) w1 cap_pos H1)
    as (w' & Hpops & H' & Hd & _).
  exists w'. unfold bind at 1. rewrite Hrun, Hpops.
  split_and!; auto; congruence.
Qed.

(** X2 — The disk tier is a queue: with the RAM tier empty and the file
    holding the lines of [items], [k] pops return 0 each time with the
    first [k] items in file order, each cut to [buf_size - 1] bytes, and
    leave the file holding exactly the lines of the other items. *)
Theorem disk_pops_drain_in_order cap path items k w n :
  0 < cap ->
  ring_repr cap [] w -> io w = no_faults ->
  disk w !! path = Some (lines items) ->
  Forall line_item items -> k <= length items ->
  pop_all cap path (S n) k w =
    Some (map (fun x => (0%Z, take n x)) (take k items),
          set_disk (<[path := lines (drop k items)]> (disk w)) w).
Proof. intros. by apply pop_all_disk. Qed.

(** X3 — Order of pops after a spill, at any capacity: after the pushes
    that fill an empty queue and the push of [x] that spills them, the
    pops return [x] first, from the RAM tier, and then the spilled items in
    the order of their pushes, from the file, which ends up empty. *)
Theorem spill_then_pops_order cap path items x w n :
  1 < cap ->
  ring_repr cap [] w -> io w = no_faults -> file_content path w = [] ->
  length items = cap - 1 ->
  Forall line_item items ->
  exists w',
    (push_all cap path (items ++ [x]) ;;;
     pop_all cap path (S n) (S (length items))) w =
      Some ((0%Z, take n x) :: map (fun y => (0%Z, take n y)) items, w') /\
    ring_repr cap [] w' /\ disk w' !! path = Some [].
Proof.
  intros Hcap H Hio Hfile Hlen Hitems. assert (cap_pos : 0 < cap) by lia.
  destruct (push_all_fill_then_spill cap path items x w Hcap H Hio Hlen)
    as (w1 & Hrun & H1 & Hc1 & _ & Hio1).
  rewrite Hfile, app_nil_l in Hc1.
  destruct (ultraqueue_pop_ram cap cap_pos path x [] w1 [] n H1)
    as (w2 & Hpop & H2 & Hd2 & Hio2).
  assert (Hdisk : disk w2 !! path = Some (lines items)).
  { rewrite Hd2. apply file_content_lookup; [done|].
    destruct items as [|y items]; [simpl in Hlen; lia|].
    rewrite lines_cons. by destruct y. }
  rewrite Hio1 in Hio2.
  pose proof (pop_all_disk cap path n (length items) items w2 cap_pos H2
                Hio2 Hdisk Hitems ltac:(lia)) as Hpops.
  rewrite take_ge, drop_ge in Hpops by lia.
  eexists. unfold bind at 1. rewrite Hrun. cbn [pop_all]. unfold bind.
  rewrite Hpop, Hpops. unfold ret. split_and!; [reflexivity|done|].
  simpl. by rewrite lookup_insert_eq.
Qed.

(** ** What the operations return *)

Lemma push_ram_codes cap item l w :
  0 < cap -> ring_repr cap l w ->
  exists r w',
    push_ram cap item w = Some (r, w') /\
    (r = 0%Z \/ r = (-1)%Z \/ r = (-2)%Z).
Proof.
  intros cap_pos H. destruct (decide (length l = cap - 1)) as [Hfull|Hroom].
  { rewrite (push_ram_full _ cap_pos _ _ item H Hfull). eauto 6. }
  destruct (malloc_fails (io w)) eqn:Hm.
  { rewrite (push_ram_no_memory _ cap_pos _ _ item H Hroom Hm). eauto 6. }
  destruct (push_ram_ok _ cap_pos _ _ item H Hroom Hm) as (w1 & -> & _).
  eauto 6.
Qed.

(** X4 — A push on a well-formed RAM tier always has a defined result,
    whatever the file system holds and whatever fails: the spill loop ends,
    no slot outside the array is used and no NULL slot is written out.  It
    returns 0, -1, -2 or -3, and leaves the RAM tier well formed. *)
Theorem ultraqueue_push_defined cap path item l w :
  0 < cap -> ring_repr cap l w ->
  exists r w' l',
    ultraqueue_push cap path item w = Some (r, w') /\
    (r = 0%Z \/ r = (-1)%Z \/ r = (-2)%Z \/ r = (-3)%Z) /\
    ring_repr cap l' w'.
Proof.
  intros cap_pos H.
  assert (exists r w', ultraqueue_push cap path item w = Some (r, w') /\
            (r = 0%Z \/ r = (-1)%Z \/ r = (-2)%Z \/ r = (-3)%Z))
    as (r & w' & Hpush & Hr).
  { destruct (decide (length l = cap - 1)) as [Hfull|Hroom].
    - rewrite (ultraqueue_push_full cap cap_pos path item l w H Hfull).
      destruct (spill_to_disk_spec cap cap_pos path l w H)
        as (r1 & w1 & k & tail & -> & H1 & _ & _ & Hcase & _).
      case_decide as Hr1.
      + exists r1, w1. split; [done|].
        destruct Hcase as [(? & _)|[(? & _)|[(? & _)|(? & _)]]]; auto.
      + destruct (push_ram_codes cap item _ w1 cap_pos H1)
          as (r & w' & -> & Hr). exists r, w'. split; [done|]. tauto.
    - destruct (push_ram_codes cap item l w cap_pos H) as (r & w' & Hp & Hr).
      assert (r <> (-1)%Z).
      { intros ->. destruct (malloc_fails (io w)) eqn:Hm.
        - rewrite (push_ram_no_memory _ cap_pos _ _ item H Hroom Hm) in Hp.
          by simplify_eq.
        - destruct (push_ram_ok _ cap_pos _ _ item H Hroom Hm)
            as (w2 & Hp2 & _). rewrite Hp2 in Hp. by simplify_eq. }
      exists r, w'. unfold ultraqueue_push, bind. rewrite Hp.
      rewrite decide_False by done. split; [done|]. tauto. }
  destruct (ultraqueue_push_preserves cap cap_pos path item l w r w' H Hpush)
    as (l' & H').
  by exists r, w', l'.
Qed.

Lemma scan_lines_total buf_size : forall fuel fp found out temp w,
  0 < buf_size -> length fp < fuel ->
  exists r w', scan_lines fuel fp found out buf_size temp w = Some (r, w').
Proof.
  induction fuel as [|fuel IH]; intros fp found out temp w Hb Hfuel; [lia|].
  cbn [scan_lines]. destruct (fgets MAX_LINE fp) as [[line rest]|] eqn:Hget.
  - pose proof (fgets_progress _ _ _ _ MAX_LINE_ge Hget) as Hlt.
    destruct found.
    + unfold bind at 1, fputs_temp, bind at 1, write_ok.
      destruct (writes_left (io w)) as [[|k]|]; unfold ret;
        apply IH; (done || lia).
    + unfold bind, strncpy_nul. destruct buf_size; [lia|].
      unfold ret. apply IH; lia.
  - by eexists _, _.
Qed.

(** X5 — A pop into a buffer of at least one byte on a well-formed RAM
    tier always has a defined result, whatever bytes the file holds and
    whatever fails: both loops over the file end.  It returns 0, -1, -2, -3
    or -4. *)
Theorem ultraqueue_pop_defined cap path out buf_size l w :
  0 < cap -> ring_repr cap l w -> 0 < buf_size ->
  exists r out' w',
    ultraqueue_pop cap path out buf_size w = Some ((r, out'), w') /\
    (r = 0%Z \/ r = (-1)%Z \/ r = (-2)%Z \/ r = (-3)%Z \/ r = (-4)%Z).
Proof.
  intros cap_pos H Hb. destruct buf_size as [|n]; [lia|].
  destruct l as [|x l].
  - unfold ultraqueue_pop, bind at 1.
    rewrite (pop_ram_empty _ cap_pos _ _ _ H). cbn [fst snd].
    rewrite decide_False by done. unfold bind at 1, fopen_r, gets.
    destruct (if fopen_r_fails (io w) then None else disk w !! path)
      as [content|]; [|unfold ret; eauto 10].
    unfold bind at 1, tmpfile, gets.
    destruct (negb (tmpfile_fails (io w))); cbn [negb];
      [|unfold ret; eauto 10].
    unfold bind at 1.
    destruct (scan_lines_total (S n) (S (length content)) content false out
                [] w ltac:(lia) ltac:(lia)) as ([[found o] temp] & w1 & ->).
    unfold bind at 1, fopen_w. destruct (fopen_w_fails (io w1)); cbn [negb].
    + unfold ret. eauto 10.
    + unfold bind at 1.
      destruct (copy_back_total path (S (length temp)) temp
                  (set_disk (<[path:=[]]> (disk w1)) w1) ltac:(lia))
        as (w2 & ->).
      unfold ret. destruct found; eauto 10.
  - destruct (ultraqueue_pop_ram cap cap_pos path x l w out n H)
      as (w' & -> & _). eauto 10.
Qed.

(** X6 — A push that cannot allocate its copy returns -2 and the item is
    not stored.  When the RAM tier has room nothing changes; when it is
    full the spill comes first and succeeds, so the old items are on disk,
    the RAM tier is empty and the new item is lost. *)
Theorem push_without_memory cap path item l w :
  0 < cap -> ring_repr cap l w -> malloc_fails (io w) = true ->
  (length l <> cap - 1 ->
   ultraqueue_push cap path item w = Some ((-2)%Z, w)) /\
  (length l = cap - 1 -> 1 < cap ->
   fopen_a_fails (io w) = false -> writes_left (io w) = None ->
   exists w',
     ultraqueue_push cap path item w = Some ((-2)%Z, w') /\
     ring_repr cap [] w' /\
     file_content path w' = file_content path w ++ lines l).
Proof.
  intros cap_pos H Hm. split.
  - intros Hroom. unfold ultraqueue_push, bind.
    rewrite (push_ram_no_memory _ cap_pos _ _ item H Hroom Hm).
    by rewrite decide_False.
  - intros Hfull Hcap Ha Hwr.
    rewrite (ultraqueue_push_full cap cap_pos path item l w H Hfull).
    destruct (spill_to_disk_spec cap cap_pos path l w H)
      as (r & w1 & k & tail & Hrun & Hr & Hc & _ & Hcase & Hio).
    destruct (Hio Ha Hwr) as [-> Hio1]. rewrite Hrun.
    destruct Hcase as [(_ & -> & ->)|[(? & _)|[(? & _)|(? & _)]]]; try done.
    rewrite drop_all in Hr. rewrite take_ge, app_nil_r in Hc by done.
    rewrite decide_False by (intros ?; done).
    exists w1. split_and!; auto.
    apply (push_ram_no_memory _ cap_pos [] w1 item Hr); [simpl; lia|].
    by rewrite Hio1.
Qed.

(** X13 — A pop served by the RAM tier does no I/O: it returns 0 with the
    oldest item of the RAM tier whatever the file system holds and even
    when every call of the C library would fail, and it leaves the file
    system as it is. *)
Theorem pop_from_ram_no_io cap path x l w out n :
  0 < cap -> ring_repr cap (x :: l) w ->
  exists w',
    ultraqueue_pop cap path out (S n) w = Some ((0%Z, take n x), w') /\
    ring_repr cap l w' /\ disk w' = disk w /\ io w' = io w.
Proof. intros cap_pos H. by apply ultraqueue_pop_ram. Qed.

(** ** Failures while a disk pop rewrites the file *)

Lemma scan_lines_rest_no_writes out buf_size w : forall fuel fp temp,
  writes_left (io w) = Some 0 -> length fp < fuel ->
  scan_lines fuel fp true out buf_size temp w = Some ((true, out, temp), w).
Proof.
  induction fuel as [|fuel IH]; intros fp temp Hn Hfuel; [lia|].
  cbn [scan_lines]. destruct (fgets MAX_LINE fp) as [[line rest]|] eqn:Hget.
  - pose proof (fgets_progress _ _ _ _ MAX_LINE_ge Hget) as Hlt.
    unfold bind at 1, fputs_temp, bind at 1, write_ok. rewrite Hn.
    unfold ret. apply IH; [done|lia].
  - done.
Qed.

Lemma first_line_out x n :
  line_item x -> strip_newline (take n (c_str (x ++ [newline]))) = take n x.
Proof.
  intros (Hnul & Hnl & _). rewrite c_str_id.
  - by apply strip_newline_take.
  - apply not_elem_of_app. split; [done|].
    apply not_elem_of_cons. split; [done|apply not_elem_of_nil].
Qed.

(** X7 — A disk pop that cannot rewrite the file leaves the file as it
    is.  When [tmpfile] fails it returns -2 and the caller's buffer is
    untouched.  When the file cannot be reopened for writing it returns -3,
    but the first line has already been copied to the caller's buffer: the
    item is delivered with an error code and is still the first line of
    the file. *)
Theorem pop_rewrite_failures cap path x rest w out n :
  0 < cap ->
  ring_repr cap [] w -> fopen_r_fails (io w) = false ->
  disk w !! path = Some (x ++ newline :: rest) -> line_item x ->
  (tmpfile_fails (io w) = true ->
   ultraqueue_pop cap path out (S n) w = Some (((-2)%Z, out), w)) /\
  (tmpfile_fails (io w) = false -> writes_left (io w) = None ->
   fopen_w_fails (io w) = true ->
   ultraqueue_pop cap path out (S n) w = Some (((-3)%Z, take n x), w)).
Proof.
  intros cap_pos H Hr Hdisk Hx.
  assert (Hstart : forall k : Z * cstring -> M (Z * cstring),
            bind (pop_ram cap out (S n)) k w = k ((-1)%Z, out) w).
  { intros k. unfold bind. by rewrite (pop_ram_empty _ cap_pos _ _ _ H). }
  split.
  - intros Ht. unfold ultraqueue_pop. rewrite Hstart. cbn [fst snd].
    rewrite decide_False by done. unfold bind at 1, fopen_r, gets.
    rewrite Hr, Hdisk. unfold bind at 1, tmpfile, gets. by rewrite Ht.
  - intros Ht Hwr Hw. unfold ultraqueue_pop. rewrite Hstart. cbn [fst snd].
    rewrite decide_False by done. unfold bind at 1, fopen_r, gets.
    rewrite Hr, Hdisk. unfold bind at 1, tmpfile, gets. rewrite Ht.
    cbn [negb]. unfold bind at 1. cbn [scan_lines].
    rewrite (fgets_first_line _ _ Hx). unfold bind at 1, strncpy_nul, ret.
    destruct (scan_lines_rest_total
                (strip_newline (take n (c_str (x ++ [newline])))) (S n) w
                (length (x ++ newline :: rest)) rest [] Hwr) as (temp & ->).
    { rewrite length_app. simpl. lia. }
    unfold bind at 1, fopen_w. rewrite Hw. cbn [negb].
    by rewrite first_line_out.
Qed.

(** X8 — The writes of a disk pop are not checked.  When every [fputs]
    fails, the pop still returns 0 with the first line, nothing reaches the
    temporary file, and the file is left empty: the lines after the first
    are lost without an error code. *)
Theorem pop_lost_writes cap path x rest w out n :
  0 < cap ->
  ring_repr cap [] w ->
  fopen_r_fails (io w) = false -> tmpfile_fails (io w) = false ->
  fopen_w_fails (io w) = false -> writes_left (io w) = Some 0 ->
  disk w !! path = Some (x ++ newline :: rest) -> line_item x ->
  ultraqueue_pop cap path out (S n) w =
    Some ((0%Z, take n x), set_disk (<[path := []]> (disk w)) w).
Proof.
  intros cap_pos H Hr Ht Hw Hwr Hdisk Hx.
  unfold ultraqueue_pop, bind at 1.
  rewrite (pop_ram_empty _ cap_pos _ _ _ H). cbn [fst snd].
  rewrite decide_False by done. unfold bind at 1, fopen_r, gets.
  rewrite Hr, Hdisk. unfold bind at 1, tmpfile, gets. rewrite Ht.
  cbn [negb]. unfold bind at 1. cbn [scan_lines].
  rewrite (fgets_first_line _ _ Hx). unfold bind at 1, strncpy_nul, ret.
  rewrite scan_lines_rest_no_writes; [|done|rewrite length_app; simpl; lia].
  unfold bind at 1, fopen_w. rewrite Hw. cbn [negb].
  unfold bind at 1. cbn [copy_back length fgets]. unfold ret.
  by rewrite first_line_out.
Qed.

(** ** One RAM tier for every path *)

(** X9 — The RAM tier is shared by all paths, and a spill writes to the
    path of the push that starts it: items pushed under [p1] until the RAM
    tier is full are appended to the file of [p2] when the next push names
    [p2], and the file of [p1] is neither created nor changed. *)
Theorem spill_goes_to_pushing_path cap p1 p2 items x w :
  1 < cap ->
  ring_repr cap [] w -> io w = no_faults ->
  length items = cap - 1 -> p1 <> p2 ->
  exists w',
    (push_all cap p1 items ;;; ultraqueue_push cap p2 x) w = Some (0%Z, w') /\
    ring_repr cap [x] w' /\
    file_content p2 w' = file_content p2 w ++ lines items /\
    disk w' !! p1 = disk w !! p1.
Proof.
  intros Hcap H Hio Hlen Hp. assert (cap_pos : 0 < cap) by lia.
  assert (Hm : malloc_fails (io w) = false) by (by rewrite Hio).
  destruct (push_all_room cap cap_pos p1 items [] w H
              ltac:(simpl; lia) Hm) as (w1 & Hrun1 & H1 & Hd1 & Hio1).
  simpl app in H1. rewrite Hio in Hio1.
  assert (Hm1 : malloc_fails (io w1) = false) by (by rewrite Hio1).
  assert (Ha1 : fopen_a_fails (io w1) = false) by (by rewrite Hio1).
  assert (Hw1 : writes_left (io w1) = None) by (by rewrite Hio1).
  destruct (ultraqueue_push_spill cap cap_pos p2 x items w1 Hcap H1 Hlen
              Hm1 Ha1 Hw1) as (w' & Hpush & H' & Hc & Ho & _).
  exists w'. unfold bind. rewrite Hrun1, Hpush. split_and!; auto.
  - rewrite Hc. unfold file_content. by rewrite Hd1.
  - by rewrite Ho, Hd1.
Qed.

(** ** The length of the queue *)



Lemma fgets_aux_all n x :
  newline ∉ x -> length x <= n -> fgets_aux n x = (x, []).
Proof.
  revert n. induction x as [|c x IH]; intros n Hx Hn.
  - by destruct n.
  - destruct n as [|n]; simpl in Hn; [lia|].
    apply not_elem_of_cons in Hx as [Hne Hx].
    cbn [fgets_aux]. rewrite decide_False by done.
    rewrite IH by (done || lia). done.
Qed.

(** X12 — A last record without a newline: when the file holds the bytes
    of one item and no newline, [ultraqueue_len] does not count it, yet a
    pop returns 0 with the item and leaves the file empty. *)
Theorem unterminated_last_record cap path x w out n :
  0 < cap ->
  ring_repr cap [] w -> io w = no_faults ->
  disk w !! path = Some x -> x <> [] -> line_item x ->
  ultraqueue_len cap path w = Some (0%Z, w) /\
  ultraqueue_pop cap path out (S n) w =
    Some ((0%Z, take n x), set_disk (<[path := []]> (disk w)) w).
Proof.
  intros cap_pos H Hio Hdisk Hne (Hnul & Hnl & Hfit). split.
  - rewrite (ultraqueue_len_eq cap cap_pos path [] w H), Hio.
    cbn [fopen_r_fails no_faults]. unfold file_content. rewrite Hdisk.
    cbn [default]. by rewrite count_newlines_none.
  - rewrite (ultraqueue_pop_disk cap cap_pos path w x x [] out n H Hio Hdisk).
    + rewrite strip_newline_id; [done|].
      intros Hin. apply Hnl. apply elem_of_take in Hin as (i & Hi & _).
      by eapply list_elem_of_lookup_2.
    + unfold fgets. destruct x as [|c x]; [done|].
      rewrite fgets_aux_all; [done|done|lia].
    + done.
Qed.

(** ** What a push keeps *)

Lemma lines_app l1 l2 : lines (l1 ++ l2) = lines l1 ++ lines l2.
Proof. unfold lines. by rewrite map_app, concat_app. Qed.

(** The world that [push_ram] leaves, by its result. *)
Lemma push_ram_result cap item l w r w' :
  0 < cap -> ring_repr cap l w -> push_ram cap item w = Some (r, w') ->
  (r = 0%Z /\ ring_repr cap (l ++ [item]) w' /\ disk w' = disk w) \/
  ((r = (-1)%Z \/ r = (-2)%Z) /\ w' = w).
Proof.
  intros cap_pos H Hp. destruct (decide (length l = cap - 1)) as [Hfull|Hroom].
  { rewrite (push_ram_full _ cap_pos _ _ item H Hfull) in Hp.
    simplify_eq. auto. }
  destruct (malloc_fails (io w)) eqn:Hm.
  { rewrite (push_ram_no_memory _ cap_pos _ _ item H Hroom Hm) in Hp.
    simplify_eq. auto. }
  destruct (push_ram_ok _ cap_pos _ _ item H Hroom Hm)
    as (w2 & Hp2 & H2 & Hd2 & _).
  rewrite Hp2 in Hp. simplify_eq. auto.
Qed.

(** X14 — What a push keeps: read in the order disk file, then RAM tier,
    the queue of a path is a sequence of lines.  A push that returns 0
    adds the line of its item at the end of that sequence, also when it
    spills; a push that returns -1 or -2 leaves the sequence as it is,
    though a part of it may have moved from the RAM tier to the file.  No
    other file changes.  (Only a push that returns -3 breaks the sequence:
    an item is then in the file without its newline and still in the RAM
    tier.) *)
Theorem push_conserves_items cap path item l w r w' :
  0 < cap -> ring_repr cap l w ->
  ultraqueue_push cap path item w = Some (r, w') -> r <> (-3)%Z ->
  exists l',
    ring_repr cap l' w' /\
    file_content path w' ++ lines l' =
      file_content path w ++
      lines (if decide (r = 0%Z) then l ++ [item] else l) /\
    forall p, p <> path -> disk w' !! p = disk w !! p.
Proof.
  intros cap_pos H Hpush Hr.
  destruct (decide (length l = cap - 1)) as [Hfull|Hroom].
  - rewrite (ultraqueue_push_full cap cap_pos path item l w H Hfull) in Hpush.
    destruct (spill_to_disk_spec cap cap_pos path l w H)
      as (r1 & w1 & k & tail & Hrun & H1 & Hc & Ho & Hcase & _).
    rewrite Hrun in Hpush. case_decide as Hr1.
    + simplify_eq. exists (drop k l). rewrite decide_False by done.
      split_and!; auto. rewrite Hc.
      assert (tail = []) as ->.
      { destruct Hcase as [(? & _)|[(_ & _ & ? & _)|[(_ & _ & ?)|(? & _)]]];
          done. }
      rewrite app_nil_r, <- app_assoc, <- lines_app. by rewrite take_drop.
    + assert (r1 = 0%Z) as -> by (by destruct (decide (r1 = 0%Z))).
      destruct Hcase as [(_ & -> & ->)|[(? & _)|[(? & _)|(? & _)]]];
        try done.
      rewrite drop_all in H1. rewrite take_ge, app_nil_r in Hc by done.
      destruct (push_ram_result cap item [] w1 r w' cap_pos H1 Hpush)
        as [(-> & H' & Hd)|(Hcode & ->)].
      * exists [item]. rewrite decide_True by done. split_and!; auto.
        -- unfold file_content at 1. rewrite Hd.
           fold (file_content path w1).
           by rewrite Hc, lines_app, app_assoc.
        -- intros p Hp. rewrite Hd. by apply Ho.
      * exists []. rewrite decide_False by (destruct Hcode; by subst).
        split_and!; auto. by rewrite Hc, app_nil_r.
  - unfold ultraqueue_push, bind in Hpush.
    destruct (malloc_fails (io w)) eqn:Hm.
    + rewrite (push_ram_no_memory _ cap_pos _ _ item H Hroom Hm) in Hpush.
      rewrite decide_False in Hpush by done. unfold ret in Hpush.
      simplify_eq. exists l. rewrite decide_False by done. by split_and!.
    + destruct (push_ram_ok _ cap_pos _ _ item H Hroom Hm)
        as (w1 & Hp & H' & Hd & _).
      rewrite Hp in Hpush. rewrite decide_False in Hpush by done.
      unfold ret in Hpush. simplify_eq.
      exists (l ++ [item]). rewrite decide_True by done. split_and!; auto.
      * unfold file_content. by rewrite Hd.
      * intros p _. by rewrite Hd.
Qed.

(** ** The further properties on concrete queues *)

(** Two pushes and two pops at the capacity of the source. *)
Lemma ram_fifo_round_trip_witness :
  let w := initial_world SOURCE_CAPACITY ∅ no_faults in
  let items := [str "a"; str "b"] in
  exists w',
    (push_all SOURCE_CAPACITY "q" items ;;;
     pop_all SOURCE_CAPACITY "q" 16 (length ([] ++ items))) w =
      Some (map (fun x => (0%Z, take 15 x)) ([] ++ items), w') /\
    ring_repr SOURCE_CAPACITY [] w' /\ disk w' = disk w.
Proof.
  intros w items.
  apply (ram_fifo_round_trip SOURCE_CAPACITY "q" items [] w 15).
  - apply ring_repr_initial, source_capacity_pos.
  - unfold SOURCE_CAPACITY. simpl. lia.
  - reflexivity.
Defined.

(** Two pops on a file of three lines. *)
Lemma disk_pops_drain_in_order_witness :
  let items := [str "x"; str "y"; str "z"] in
  let w := initial_world SOURCE_CAPACITY {[ "q" := lines items ]} no_faults in
  pop_all SOURCE_CAPACITY "q" 16 2 w =
    Some (map (fun x => (0%Z, take 15 x)) (take 2 items),
          set_disk (<["q" := lines (drop 2 items)]> (disk w)) w).
Proof.
  intros items w.
  apply (disk_pops_drain_in_order SOURCE_CAPACITY "q" items 2 w 15).
  - apply source_capacity_pos.
  - apply ring_repr_initial, source_capacity_pos.
  - reflexivity.
  - reflexivity.
  - by_evaluation.
  - simpl. lia.
Defined.

(** The pushes of "a", "b", "c" at capacity 3 and three pops. *)
Lemma spill_then_pops_order_witness :
  let w := initial_world 3 ∅ no_faults in
  let items := [str "a"; str "b"] in
  exists w',
    (push_all 3 "q" (items ++ [str "c"]) ;;;
     pop_all 3 "q" 16 (S (length items))) w =
      Some ((0%Z, take 15 (str "c")) ::
              map (fun y => (0%Z, take 15 y)) items, w') /\
    ring_repr 3 [] w' /\ disk w' !! "q" = Some [].
Proof.
  intros w items.
  apply (spill_then_pops_order 3 "q" items (str "c") w 15).
  - lia.
  - apply ring_repr_initial. lia.
  - reflexivity.
  - reflexivity.
  - reflexivity.
  - by_evaluation.
Defined.

(** A push on a full RAM tier whose writes fail after the first. *)
Lemma ultraqueue_push_defined_witness :
  let w := mkWorld [Some (str "a"); None] 0 1 ∅
             (mkIo false false false false false (Some 1)) in
  exists r w' l',
    ultraqueue_push 2 "q" (str "b") w = Some (r, w') /\
    (r = 0%Z \/ r = (-1)%Z \/ r = (-2)%Z \/ r = (-3)%Z) /\
    ring_repr 2 l' w'.
Proof.
  intros w. apply (ultraqueue_push_defined 2 "q" (str "b") [str "a"] w).
  - lia.
  - apply ring_repr_one_of_two.
Defined.

(** A pop on a file that holds a NUL and no newline. *)
Lemma ultraqueue_pop_defined_witness :
  let w := initial_world SOURCE_CAPACITY
             {[ "q" := [ "a"%char; NUL; "b"%char ] ]}
             (mkIo false false false false false (Some 0)) in
  exists r out' w',
    ultraqueue_pop SOURCE_CAPACITY "q" [] 1 w = Some ((r, out'), w') /\
    (r = 0%Z \/ r = (-1)%Z \/ r = (-2)%Z \/ r = (-3)%Z \/ r = (-4)%Z).
Proof.
  intros w. apply (ultraqueue_pop_defined SOURCE_CAPACITY "q" [] 1 [] w).
  - apply source_capacity_pos.
  - apply ring_repr_initial, source_capacity_pos.
  - lia.
Defined.

(** A full RAM tier of capacity 2 and a failing [strdup]. *)
Lemma push_without_memory_witness :
  let w := mkWorld [Some (str "a"); None] 0 1 ∅
             (mkIo true false false false false None) in
  (length [str "a"] <> 2 - 1 ->
   ultraqueue_push 2 "q" (str "b") w = Some ((-2)%Z, w)) /\
  (length [str "a"] = 2 - 1 -> 1 < 2 ->
   fopen_a_fails (io w) = false -> writes_left (io w) = None ->
   exists w',
     ultraqueue_push 2 "q" (str "b") w = Some ((-2)%Z, w') /\
     ring_repr 2 [] w' /\
     file_content "q" w' = file_content "q" w ++ lines [str "a"]).
Proof.
  intros w. apply (push_without_memory 2 "q" (str "b") [str "a"] w).
  - lia.
  - apply ring_repr_one_of_two.
  - reflexivity.
Defined.

(** A file of two lines that cannot be reopened for writing. *)
Lemma pop_rewrite_failures_witness :
  let w := initial_world SOURCE_CAPACITY
             {[ "q" := str "x" ++ newline :: lines [str "y"] ]}
             (mkIo false false false true false None) in
  (tmpfile_fails (io w) = true ->
   ultraqueue_pop SOURCE_CAPACITY "q" [] 16 w = Some (((-2)%Z, []), w)) /\
  (tmpfile_fails (io w) = false -> writes_left (io w) = None ->
   fopen_w_fails (io w) = true ->
   ultraqueue_pop SOURCE_CAPACITY "q" [] 16 w =
     Some (((-3)%Z, take 15 (str "x")), w)).
Proof.
  intros w.
  apply (pop_rewrite_failures SOURCE_CAPACITY "q" (str "x") (lines [str "y"])
           w [] 15).
  - apply source_capacity_pos.
  - apply ring_repr_initial, source_capacity_pos.
  - reflexivity.
  - reflexivity.
  - by_evaluation.
Defined.

(** A file of two lines and writes that all fail. *)
Lemma pop_lost_writes_witness :
  let w := initial_world SOURCE_CAPACITY
             {[ "q" := str "x" ++ newline :: lines [str "y"] ]}
             (mkIo false false false false false (Some 0)) in
  ultraqueue_pop SOURCE_CAPACITY "q" [] 16 w =
    Some ((0%Z, take 15 (str "x")), set_disk (<["q" := []]> (disk w)) w).
Proof.
  intros w.
  apply (pop_lost_writes SOURCE_CAPACITY "q" (str "x") (lines [str "y"])
           w [] 15).
  - apply source_capacity_pos.
  - apply ring_repr_initial, source_capacity_pos.
  - reflexivity.
  - reflexivity.
  - reflexivity.
  - reflexivity.
  - reflexivity.
  - by_evaluation.
Defined.

(** Two pushes under "a.q" and a third under "b.q", at capacity 3. *)
Lemma spill_goes_to_pushing_path_witness :
  let w := initial_world 3 ∅ no_faults in
  let items := [str "1"; str "2"] in
  exists w',
    (push_all 3 "a.q" items ;;; ultraqueue_push 3 "b.q" (str "3")) w =
      Some (0%Z, w') /\
    ring_repr 3 [str "3"] w' /\
    file_content "b.q" w' = file_content "b.q" w ++ lines items /\
    disk w' !! "a.q" = disk w !! "a.q".
Proof.
  intros w items.
  apply (spill_goes_to_pushing_path 3 "a.q" "b.q" items (str "3") w).
  - lia.
  - apply ring_repr_initial. lia.
  - reflexivity.
  - reflexivity.
  - by_evaluation.
Defined.



(** A file that holds "x" and no newline. *)
Lemma unterminated_last_record_witness :
  let w := initial_world SOURCE_CAPACITY {[ "q" := str "x" ]} no_faults in
  ultraqueue_len SOURCE_CAPACITY "q" w = Some (0%Z, w) /\
  ultraqueue_pop SOURCE_CAPACITY "q" [] 16 w =
    Some ((0%Z, take 15 (str "x")), set_disk (<["q" := []]> (disk w)) w).
Proof.
  intros w.
  apply (unterminated_last_record SOURCE_CAPACITY "q" (str "x") w [] 15).
  - apply source_capacity_pos.
  - apply ring_repr_initial, source_capacity_pos.
  - reflexivity.
  - reflexivity.
  - by_evaluation.
  - by_evaluation.
Defined.

(** A pop from the RAM tier while every call of the C library fails. *)
Lemma pop_from_ram_no_io_witness :
  let w := mkWorld [Some (str "a"); None] 0 1 {[ "q" := lines [str "x"] ]}
             (mkIo true true true true true (Some 0)) in
  exists w',
    ultraqueue_pop 2 "q" [] 16 w = Some ((0%Z, take 15 (str "a")), w') /\
    ring_repr 2 [] w' /\ disk w' = disk w /\ io w' = io w.
Proof.
  intros w. apply (pop_from_ram_no_io 2 "q" (str "a") [] w [] 15).
  - lia.
  - apply ring_repr_one_of_two.
Defined.

(** A push that spills and returns 0, at capacity 2. *)
Lemma push_conserves_items_witness :
  let w := mkWorld [Some (str "a"); None] 0 1 ∅ no_faults in
  let w' := world_after (ultraqueue_push 2 "q" (str "b")) w in
  exists l',
    ring_repr 2 l' w' /\
    file_content "q" w' ++ lines l' =
      file_content "q" w ++
      lines (if decide (0%Z = 0%Z) then [str "a"] ++ [str "b"]
             else [str "a"]) /\
    forall p, p <> "q" -> disk w' !! p = disk w !! p.
Proof.
  intros w w'.
  apply (push_conserves_items 2 "q" (str "b") [str "a"] w 0%Z w').
  - lia.
  - apply ring_repr_one_of_two.
  - vm_compute. reflexivity.
  - lia.
Defined.
